(** * python-nostr: the relay manager (nostr/relay_manager.py)

    A shallow embedding of [RelayManager] and of the properties its
    specification states about it.

    The manager is sequential code run under one lock: every public method is
    modelled as a computation on an explicit [State], made of the manager's
    fields, of the store of relay objects they refer to, and of the ordered
    history of the calls made on the collaborators (lock, relays, clock).
    Properties such as "exactly one REQ is sent to this relay" or "the record
    is made before the request is sent" are read off that history. *)

From Stdlib Require Import ZArith.
From stdpp Require Import base strings pretty functions relations option list.

Set Default Proof Using "Type".
Open Scope string_scope.
Open Scope list_scope.

(** ** JSON values, as handed to [json.dumps] *)

Unset Elimination Schemes.
Inductive json : Type :=
| JNull
| JBool (b : bool)
| JNum (n : Z)
| JStr (s : string)
| JArr (items : list json)
| JObj (members : list (string * json)).
Set Elimination Schemes.

(** ** Python dictionaries

    A [dict] keeps its keys in insertion order and the manager iterates over
    it, so it is an association list: [d[k] = v] overwrites in place when [k]
    is present and appends otherwise. *)

Abbreviation dict V := (list (string * V)) (only parsing).

Fixpoint dict_get {V} (k : string) (d : dict V) : option V :=
  match d with
  | [] => None
  | (k', v) :: d' => if decide (k = k') then Some v else dict_get k d'
  end.

(** [k in d] *)
Definition dict_contains {V} (k : string) (d : dict V) : bool :=
  match dict_get k d with Some _ => true | None => false end.

(** [d[k] = v] *)
Fixpoint dict_set {V} (k : string) (v : V) (d : dict V) : dict V :=
  match d with
  | [] => [(k, v)]
  | (k', v') :: d' =>
      if decide (k = k') then (k, v) :: d' else (k', v') :: dict_set k v d'
  end.

(** [del d[k]], also the dictionary left by [d.pop(k)]: no binding of [k]
    is kept. *)
Definition dict_remove {V} (k : string) (d : dict V) : dict V :=
  filter (fun kv => kv.1 <> k) d.

Definition dict_keys {V} (d : dict V) : list string := d.*1.
Definition dict_values {V} (d : dict V) : list V := d.*2.

(** ** Collaborators of the manager *)

(** Modelled from the spec: [RelayPolicy] (nostr/relay.py is not among the
    sources): two booleans, fixed when the relay is added; both default to
    true. *)
Record RelayPolicy : Type := {
  should_read : bool;
  should_write : bool
}.

Definition default_policy : RelayPolicy :=
  {| should_read := true; should_write := true |}.

(** Modelled from the spec: the outbound proxy descriptor and the TLS
    settings are opaque transport options. *)
Inductive RelayProxyConnectionConfig : Type :=
| ProxyDescriptor (descriptor : string).

(** Modelled from the spec: [Filters] (nostr/filter.py) is a query whose wire
    form is a sequence of filter objects. *)
Definition Filters : Type := list json.

(** Modelled from the spec: a [Subscription] pairs an identifier with the
    filters it asks for. *)
Record Subscription : Type := {
  sub_id : string;
  sub_filters : Filters
}.

(** Modelled from the spec: an [Event] (nostr/event.py) has an identifier, a
    payload (its wire object) and an optional signature. *)
Record Event : Type := {
  event_id : string;
  event_object : json;
  signature : option string
}.

(** Modelled from the spec: the [MessagePool] is an opaque sink; the manager
    only builds it and hands it to each relay. *)
Inductive MessagePool : Type := NewMessagePool.

(** The lifecycle callbacks are opaque handles the manager copies around. *)
Inductive callable : Type := Callback (handle : nat).

(** Modelled from the spec: a [Relay] (nostr/relay.py): its policy, its
    live/disconnected status ([connected] is what [is_connected()] reports)
    and its subscription bookkeeping, next to what its constructor is
    given. *)
Record Relay : Type := {
  url : string;
  relay_message_pool : MessagePool;
  policy : RelayPolicy;
  ssl_options : option json;
  proxy_config : option RelayProxyConnectionConfig;
  on_open_callback : option callable;
  on_close_callback : option callable;
  subscriptions : dict Subscription;
  connected : bool
}.

Definition set_on_open_callback (cb : option callable) (r : Relay) : Relay :=
  {| url := url r; relay_message_pool := relay_message_pool r;
     policy := policy r; ssl_options := ssl_options r;
     proxy_config := proxy_config r;
     on_open_callback := cb; on_close_callback := on_close_callback r;
     subscriptions := subscriptions r; connected := connected r |}.

Definition set_on_close_callback (cb : option callable) (r : Relay) : Relay :=
  {| url := url r; relay_message_pool := relay_message_pool r;
     policy := policy r; ssl_options := ssl_options r;
     proxy_config := proxy_config r;
     on_open_callback := on_open_callback r; on_close_callback := cb;
     subscriptions := subscriptions r; connected := connected r |}.

Definition set_subscriptions (subs : dict Subscription) (r : Relay) : Relay :=
  {| url := url r; relay_message_pool := relay_message_pool r;
     policy := policy r; ssl_options := ssl_options r;
     proxy_config := proxy_config r;
     on_open_callback := on_open_callback r;
     on_close_callback := on_close_callback r;
     subscriptions := subs; connected := connected r |}.

Definition set_connected (up : bool) (r : Relay) : Relay :=
  {| url := url r; relay_message_pool := relay_message_pool r;
     policy := policy r; ssl_options := ssl_options r;
     proxy_config := proxy_config r;
     on_open_callback := on_open_callback r;
     on_close_callback := on_close_callback r;
     subscriptions := subscriptions r; connected := up |}.

(** A store cell that has not been allocated. *)
Definition blank : Relay :=
  {| url := ""; relay_message_pool := NewMessagePool;
     policy := default_policy; ssl_options := None; proxy_config := None;
     on_open_callback := None; on_close_callback := None;
     subscriptions := []; connected := false |}.

(** ** The history of calls

    Every call made on the lock, on a relay object or on the clock, in the
    order it is made.  A relay object is named by its reference [o] in the
    store: two relays built for the same url are different objects. *)
Inductive Call : Type :=
| LockAcquire
| LockRelease
| Connect (o : nat) (is_reconnect : bool)
| Close (o : nat)
| Publish (o : nat) (message : string)
| AddSubscription (o : nat) (id : string) (filters : Filters)
| CloseSubscription (o : nat) (id : string)
| Sleep (secs : Z).

(** The relay object a call is made on. *)
Definition target (c : Call) : option nat :=
  match c with
  | Connect o _ | Close o | Publish o _
  | AddSubscription o _ _ | CloseSubscription o _ => Some o
  | LockAcquire | LockRelease | Sleep _ => None
  end.

(** The calls of a history made on relay object [o], in order. *)
Definition calls_on (o : nat) (h : list Call) : list Call :=
  filter (fun c => target c = Some o) h.

Definition message_of (c : Call) : option string :=
  match c with Publish _ m => Some m | _ => None end.

Definition retry_flag_of (c : Call) : option bool :=
  match c with Connect _ b => Some b | _ => None end.

(** The messages passed to [publish] on relay object [o], in order. *)
Definition published_to (o : nat) (h : list Call) : list string :=
  omap message_of (calls_on o h).

(** The [connect] calls made on relay object [o]: their retry flags. *)
Definition connects_on (o : nat) (h : list Call) : list bool :=
  omap retry_flag_of (calls_on o h).

(** The relay objects [close] is called on, in order. *)
Definition closed_in (h : list Call) : list nat :=
  omap (fun c => match c with Close o => Some o | _ => None end) h.

(** The outbound messages of a history, whatever the relay. *)
Definition outbound (h : list Call) : list string :=
  omap message_of h.


(** ** The manager's state *)

Inductive exception : Type :=
| RelayException (message : string)
| KeyError (key : string)
| ValueError
| OverflowError.

Record RelayManager : Type := {
  connection_monitor_interval_secs : Z;
  on_relay_open : option callable;
  on_relay_close : option callable;
  stop_threads : bool;
  relays : dict nat;
  message_pool : MessagePool
}.

Definition set_relays (d : dict nat) (m : RelayManager) : RelayManager :=
  {| connection_monitor_interval_secs := connection_monitor_interval_secs m;
     on_relay_open := on_relay_open m; on_relay_close := on_relay_close m;
     stop_threads := stop_threads m; relays := d;
     message_pool := message_pool m |}.

(** The manager; the store of relay objects, [self.relays] holding references
    into it; the history of calls so far.  Cells of the store from [next_oid]
    on are not allocated yet. *)
Record State : Type := {
  self : RelayManager;
  objects : nat -> Relay;
  next_oid : nat;
  history : list Call
}.

Definition with_self (m : RelayManager) (s : State) : State :=
  {| self := m; objects := objects s; next_oid := next_oid s;
     history := history s |}.

Definition with_objects (f : nat -> Relay) (s : State) : State :=
  {| self := self s; objects := f; next_oid := next_oid s;
     history := history s |}.

Definition with_next_oid (n : nat) (s : State) : State :=
  {| self := self s; objects := objects s; next_oid := n;
     history := history s |}.

Definition with_history (h : list Call) (s : State) : State :=
  {| self := self s; objects := objects s; next_oid := next_oid s;
     history := h |}.

(** A method either returns or raises; the state it leaves is kept in both
    cases, as Python keeps the mutations made before a [raise]. *)
Inductive result (A : Type) : Type :=
| Ok (a : A)
| Raise (e : exception).
Arguments Ok {A} a.
Arguments Raise {A} e.

Definition M (A : Type) : Type := State -> result A * State.

Definition ret {A} (a : A) : M A := fun s => (Ok a, s).

Definition bind {A B} (k : A -> M B) (c : M A) : M B :=
  fun s => match c s with
           | (Ok a, s') => k a s'
           | (Raise e, s') => (Raise e, s')
           end.

Definition raise {A} (e : exception) : M A := fun s => (Raise e, s).

#[export] Instance M_ret : MRet M := @ret.
#[export] Instance M_bind : MBind M := @bind.

Definition get_self : M RelayManager := fun s => (Ok (self s), s).

Definition put_relays (d : dict nat) : M unit :=
  fun s => (Ok tt, with_self (set_relays d (self s)) s).

(** The object a reference points to. *)
Definition deref (o : nat) : M Relay := fun s => (Ok (objects s o), s).

(** In-place mutation of the object a reference points to. *)
Definition mutate (o : nat) (f : Relay -> Relay) : M unit :=
  fun s => (Ok tt, with_objects (<[o := f (objects s o)]> (objects s)) s).

Definition log (c : Call) : M unit :=
  fun s => (Ok tt, with_history (history s ++ [c]) s).

(** [time.sleep(secs)], of Python's standard library, on an integer: the
    duration is first converted to a 64-bit count of nanoseconds, which
    raises [OverflowError] beyond [sleep_max] seconds either way; a negative
    duration then raises [ValueError]; otherwise the call returns once the
    time has passed. *)
Definition sleep_max : Z := 9223372036.

Definition sleep_error (secs : Z) : option exception :=
  if (secs <? - sleep_max)%Z || (sleep_max <? secs)%Z then Some OverflowError
  else if (secs <? 0)%Z then Some ValueError
  else None.

Definition time_sleep (secs : Z) : M unit :=
  match sleep_error secs with
  | Some e => raise e
  | None => log (Sleep secs)
  end.

(** What [time.sleep(secs)] comes to: its result, given what it returns
    when it does, and the call it leaves in the history. *)
Definition sleep_result {A} (secs : Z) (a : A) : result A :=
  match sleep_error secs with Some e => Raise e | None => Ok a end.

Definition slept (secs : Z) : list Call :=
  match sleep_error secs with Some _ => [] | None => [Sleep secs] end.

(** [for x in xs: body] *)
Fixpoint for_each {A} (xs : list A) (body : A -> M unit) : M unit :=
  match xs with
  | [] => mret tt
  | x :: xs' => body x ;; for_each xs' body
  end.

(** [with self.lock: body]: the lock is released when the body returns and
    when it raises. *)
Definition with_lock {A} (body : M A) : M A :=
  fun s =>
    let '(_, s1) := log LockAcquire s in
    let '(r, s2) := body s1 in
    let '(_, s3) := log LockRelease s2 in
    (r, s3).

(** [self.relays[url]] *)
Definition getitem (url : string) : M nat :=
  m ← get_self;
  match dict_get url (relays m) with
  | Some relay => mret relay
  | None => raise (KeyError url)
  end.

(** [self.relays.pop(url)] *)
Definition pop (url : string) : M nat :=
  relay ← getitem url;
  m ← get_self;
  put_relays (dict_remove url (relays m));;
  mret relay.

(** ** Sample data

    A manager with two relays: the first may be read from and written to
    and is connected; the second may be neither and is not connected. *)

Definition quoted (s : string) : string :=
  let q := String (Ascii.ascii_of_nat 34) EmptyString in
  q +:+ s +:+ q.

(** A plain renderer of JSON values, with the separators [json.dumps] uses
    and no escaping, for the examples. *)
Fixpoint sample_dumps (j : json) : string :=
  match j with
  | JNull => "null"
  | JBool b => if b then "true" else "false"
  | JNum n => pretty n
  | JStr s => quoted s
  | JArr items => "[" +:+ String.concat ", " (map sample_dumps items) +:+ "]"
  | JObj members =>
      "{" +:+ String.concat ", "
                (map (fun kv => let '(k, v) := kv in
                                quoted k +:+ ": " +:+ sample_dumps v)
                   members)
      +:+ "}"
  end.

(** A signature check that accepts one signature. *)
Definition sample_verify (event : Event) : bool :=
  match signature event with
  | Some sig => String.eqb sig "3045022100"
  | None => false
  end.

(** A transport whose retries succeed and whose first attempts fail. *)
Definition sample_connect (_ : State) (_ : nat) (is_reconnect : bool) : bool :=
  is_reconnect.

Definition sample_filters : Filters :=
  [JObj [("kinds", JArr [JNum 1]); ("limit", JNum 10)]].

Definition relay_a : Relay :=
  {| url := "wss://relay.a"; relay_message_pool := NewMessagePool;
     policy := default_policy; ssl_options := None; proxy_config := None;
     on_open_callback := None; on_close_callback := None;
     subscriptions := [("feed", {| sub_id := "feed";
                                   sub_filters := sample_filters |})];
     connected := true |}.

Definition relay_b : Relay :=
  {| url := "wss://relay.b"; relay_message_pool := NewMessagePool;
     policy := {| should_read := false; should_write := false |};
     ssl_options := None; proxy_config := None;
     on_open_callback := None; on_close_callback := None;
     subscriptions := [("feed", {| sub_id := "feed";
                                   sub_filters := sample_filters |})];
     connected := false |}.

Definition sample_state : State :=
  {| self := {| connection_monitor_interval_secs := 5;
                on_relay_open := None; on_relay_close := None;
                stop_threads := false;
                relays := [("wss://relay.a", 0); ("wss://relay.b", 1)];
                message_pool := NewMessagePool |};
     objects := fun o => match o with 0 => relay_a | 1 => relay_b | _ => blank end;
     next_oid := 2;
     history := [] |}.

(** The same relays, registered in the other order. *)
Definition sample_state_swapped : State :=
  with_self (set_relays [("wss://relay.b", 1); ("wss://relay.a", 0)]
               (self sample_state)) sample_state.

Definition note (sig : option string) : Event :=
  {| event_id := "4376c65d";
     event_object := JObj [("id", JStr "4376c65d"); ("content", JStr "gm")];
     signature := sig |}.

(** ** The methods *)

Section RelayManager.

(** [json.dumps], of Python's standard library. *)
Variable json_dumps : json -> string.

(** [Event.verify()]: the signature check is a black box. *)
Variable verify : Event -> bool.

(** Whether the transport of a relay object is up once a [connect] attempt
    on it has returned; it may depend on everything that happened so far. *)
Variable connect_outcome : State -> nat -> bool -> bool.

(** *** Relay, Request and Event *)

(** Modelled from the spec: [Relay(url, message_pool, policy, ssl_options,
    proxy_config)] builds a new relay object: not connected, no
    subscription. *)
Definition new_Relay (u : string) (pool : MessagePool) (p : RelayPolicy)
    (ssl : option json) (proxy : option RelayProxyConnectionConfig)
  : M nat :=
  fun s =>
    let o := next_oid s in
    let r := {| url := u; relay_message_pool := pool; policy := p;
                ssl_options := ssl; proxy_config := proxy;
                on_open_callback := None; on_close_callback := None;
                subscriptions := []; connected := false |} in
    (Ok o, with_next_oid (S o) (with_objects (<[o := r]> (objects s)) s)).

(** Modelled from the spec: [relay.connect(is_reconnect=False)] returns
    once the connection attempt has succeeded or failed. *)
Definition Relay_connect (relay : nat) (is_reconnect : bool) : M unit :=
  fun s =>
    let up := connect_outcome s relay is_reconnect in
    (mutate relay (set_connected up) ;;
     log (Connect relay is_reconnect)) s.

(** Modelled from the spec: [relay.close()] closes the transport. *)
Definition Relay_close (relay : nat) : M unit :=
  mutate relay (set_connected false) ;;
  log (Close relay).

(** Modelled from the spec: [relay.is_connected()]. *)
Definition Relay_is_connected (relay : nat) : M bool :=
  r ← deref relay; mret (connected r).

(** Modelled from the spec: [relay.publish(message)] hands the message to
    the transport; delivery failures are not reported. *)
Definition Relay_publish (relay : nat) (message : string) : M unit :=
  log (Publish relay message).

(** Modelled from the spec: [relay.add_subscription(id, filters)] records
    the subscription under its identifier. *)
Definition Relay_add_subscription (relay : nat) (id : string)
    (filters : Filters) : M unit :=
  mutate relay (fun r =>
    set_subscriptions
      (dict_set id {| sub_id := id; sub_filters := filters |}
         (subscriptions r)) r) ;;
  log (AddSubscription relay id filters).

(** Modelled from the spec: [relay.close_subscription(id)] removes the
    record of the subscription. *)
Definition Relay_close_subscription (relay : nat) (id : string) : M unit :=
  mutate relay (fun r =>
    set_subscriptions (dict_remove id (subscriptions r)) r) ;;
  log (CloseSubscription relay id).

(** Modelled from the spec: [Request(id, filters).to_message()] is the
    envelope ["REQ", id, filter objects...]. *)
Definition Request_to_message (id : string) (filters : Filters) : string :=
  json_dumps (JArr (JStr "REQ" :: JStr id :: filters)).

(** Modelled from the spec: [event.to_message()] is the envelope
    ["EVENT", event object]. *)
Definition Event_to_message (event : Event) : string :=
  json_dumps (JArr [JStr "EVENT"; event_object event]).

(** [json.dumps(["CLOSE", id])] *)
Definition close_message (id : string) : string :=
  json_dumps (JArr [JStr "CLOSE"; JStr id]).

(** *** RelayManager *)

(** [__post_init__]: no relay, a new message pool, threads not stopped.
    The monitor thread it starts is [_relay_connection_monitor] below. *)
Definition post_init (interval : Z) (on_open on_close : option callable)
  : State :=
  {| self := {| connection_monitor_interval_secs := interval;
                on_relay_open := on_open; on_relay_close := on_close;
                stop_threads := false; relays := [];
                message_pool := NewMessagePool |};
     objects := fun _ => blank;
     next_oid := 0;
     history := [] |}.

Definition add_relay (url : string) (policy : RelayPolicy)
    (ssl_options : option json)
    (proxy_config : option RelayProxyConnectionConfig) : M unit :=
  m ← get_self;
  relay ← new_Relay url (message_pool m) policy ssl_options proxy_config;
  mutate relay (set_on_open_callback (on_relay_open m)) ;;
  mutate relay (set_on_close_callback (on_relay_close m)) ;;
  with_lock (
    m ← get_self;
    put_relays (dict_set url relay (relays m)) ;;
    Relay_connect relay false).

Definition remove_relay (url : string) : M unit :=
  with_lock (
    m ← get_self;
    if dict_contains url (relays m) then
      relay ← pop url;
      Relay_close relay
    else mret tt).

Definition add_subscription_on_relay (url id : string) (filters : Filters)
  : M unit :=
  with_lock (
    m ← get_self;
    if dict_contains url (relays m) then
      relay ← getitem url;
      r ← deref relay;
      if negb (should_read (policy r)) then
        raise (RelayException
                 ("Could not send request: " +:+ url
                  +:+ " is not configured to read from"))
      else
        Relay_add_subscription relay id filters ;;
        Relay_publish relay (Request_to_message id filters)
    else
      raise (RelayException
               ("Invalid relay url: no connection to " +:+ url))).

Definition add_subscription_on_all_relays (id : string) (filters : Filters)
  : M unit :=
  with_lock (
    m ← get_self;
    for_each (dict_values (relays m)) (fun relay =>
      r ← deref relay;
      if should_read (policy r) then
        Relay_add_subscription relay id filters ;;
        Relay_publish relay (Request_to_message id filters)
      else mret tt)).

Definition close_subscription_on_relay (url id : string) : M unit :=
  with_lock (
    m ← get_self;
    if dict_contains url (relays m) then
      relay ← getitem url;
      Relay_close_subscription relay id ;;
      Relay_publish relay (close_message id)
    else
      raise (RelayException
               ("Invalid relay url: no connection to " +:+ url))).

Definition close_subscription_on_all_relays (id : string) : M unit :=
  with_lock (
    m ← get_self;
    for_each (dict_values (relays m)) (fun relay =>
      Relay_close_subscription relay id ;;
      Relay_publish relay (close_message id))).

Definition close_all_relay_connections : M unit :=
  with_lock (
    m ← get_self;
    for_each (dict_keys (relays m)) (fun url =>
      relay ← getitem url;
      Relay_close relay)).

Definition publish_event (event : Event) : M unit :=
  match signature event with
  | None =>
      raise (RelayException
               ("Could not publish " +:+ event_id event
                +:+ ": must be signed"))
  | Some sig =>
      if negb (verify event) then
        raise (RelayException
                 ("Could not publish " +:+ event_id event
                  +:+ ": failed to verify signature " +:+ sig))
      else
        with_lock (
          m ← get_self;
          for_each (dict_values (relays m)) (fun relay =>
            r ← deref relay;
            if should_write (policy r) then
              Relay_publish relay (Event_to_message event)
            else mret tt))
  end.

(** One turn of the monitor's loop: the sweep under the lock, then the
    sleep. *)
Definition monitor_poll : M unit :=
  with_lock (
    m ← get_self;
    if Nat.ltb 0 (length (relays m)) then
      for_each (dict_values (relays m)) (fun relay =>
        up ← Relay_is_connected relay;
        if negb up then Relay_connect relay true else mret tt)
    else mret tt) ;;
  m ← get_self;
  time_sleep (connection_monitor_interval_secs m).


(** *** Well-formed states

    The registry is a dictionary (one binding per url), no relay object is
    registered twice, and every object registered or called so far has been
    allocated.  The initial state is well formed and every method keeps
    states so. *)

Definition allocated (n : nat) (c : Call) : Prop :=
  match target c with Some o => o < n | None => True end.

Definition wf (s : State) : Prop :=
  NoDup (dict_keys (relays (self s)))
  /\ NoDup (dict_values (relays (self s)))
  /\ Forall (fun o => o < next_oid s) (dict_values (relays (self s)))
  /\ Forall (allocated (next_oid s)) (history s).

(** One public method call, or one turn of the monitor. *)
Inductive step : State -> State -> Prop :=
| step_add_relay url p ssl proxy s :
    step s (add_relay url p ssl proxy s).2
| step_remove_relay url s :
    step s (remove_relay url s).2
| step_add_subscription_on_relay url id f s :
    step s (add_subscription_on_relay url id f s).2
| step_add_subscription_on_all_relays id f s :
    step s (add_subscription_on_all_relays id f s).2
| step_close_subscription_on_relay url id s :
    step s (close_subscription_on_relay url id s).2
| step_close_subscription_on_all_relays id s :
    step s (close_subscription_on_all_relays id s).2
| step_close_all_relay_connections s :
    step s (close_all_relay_connections s).2
| step_publish_event e s :
    step s (publish_event e s).2
| step_monitor_poll s :
    step s (monitor_poll s).2.

(** The states a manager can be in. *)
Inductive reachable : State -> Prop :=
| reachable_init interval on_open on_close :
    reachable (post_init interval on_open on_close)
| reachable_step s s' :
    reachable s -> step s s' -> reachable s'.

(** *** Loop bodies *)

(** A loop body is local when, run on relay object [o], it returns, emits
    calls that depend on [o] alone, changes no other object and nothing of
    the manager, and leaves [o] related by [R] to what it was. *)
Definition local (body : nat -> M unit) (emit : Relay -> nat -> list Call)
    (R : Relay -> Relay -> Prop) : Prop :=
  forall o s, exists s',
    body o s = (Ok tt, s')
    /\ self s' = self s
    /\ next_oid s' = next_oid s
    /\ history s' = history s ++ emit (objects s o) o
    /\ (forall o', o' <> o -> objects s' o' = objects s o')
    /\ R (objects s o) (objects s' o).

(** The calls a loop body emits for [o] are calls on [o]. *)
Definition targets_own (emit : Relay -> nat -> list Call) : Prop :=
  forall r o, Forall (fun c => target c = Some o) (emit r o).

#[export] Instance allocated_dec (n : nat) (c : Call) :
  Decision (allocated n c).
Proof. unfold allocated. destruct (target c); apply _. Defined.

#[export] Instance wf_dec (s : State) : Decision (wf s).
Proof. unfold wf. apply _. Defined.

(** Unfolding the monad. *)

Ltac run :=
  unfold with_lock, pop, getitem, Relay_close, Relay_connect,
    Relay_is_connected, Relay_publish, Relay_add_subscription,
    Relay_close_subscription, get_self, put_relays, deref, mutate, log,
    raise, mbind, M_bind, bind, mret, M_ret, ret;
  simpl.

(** *** What a method call leaves behind *)

(** The lock along a history: [Some held] when the history respects the
    lock, starting with the lock held or not; [None] when the lock is
    acquired while held or released while free, when a relay is called
    without the lock, or when the monitor sleeps with it. *)
Fixpoint lock_trace (held : bool) (h : list Call) : option bool :=
  match h with
  | [] => Some held
  | LockAcquire :: h' => if held then None else lock_trace true h'
  | LockRelease :: h' => if held then lock_trace false h' else None
  | Sleep _ :: h' => if held then None else lock_trace false h'
  | _ :: h' => if held then lock_trace true h' else None
  end.

(** Two states of one relay object: everything its constructor and
    [add_relay] set is the same; the subscriptions and the connection status
    may differ. *)
Definition same_identity (r r' : Relay) : Prop :=
  url r' = url r
  /\ relay_message_pool r' = relay_message_pool r
  /\ policy r' = policy r
  /\ ssl_options r' = ssl_options r
  /\ proxy_config r' = proxy_config r
  /\ on_open_callback r' = on_open_callback r
  /\ on_close_callback r' = on_close_callback r.

(** Two states of the manager with the same fields, [relays] apart. *)
Definition same_config (m m' : RelayManager) : Prop :=
  connection_monitor_interval_secs m' = connection_monitor_interval_secs m
  /\ on_relay_open m' = on_relay_open m
  /\ on_relay_close m' = on_relay_close m
  /\ stop_threads m' = stop_threads m
  /\ message_pool m' = message_pool m.

(** The relay calls of [delta] are made on objects of [live]. *)
Definition touches_only (live : list nat) (delta : list Call) : Prop :=
  Forall (fun c => forall o, target c = Some o -> o ∈ live) delta.

(** What a call does to the registry: nothing, one url set to a new relay
    object built for it, or one url dropped. *)
Inductive registry_change (s s' : State) : Prop :=
| registry_kept :
    relays (self s') = relays (self s) ->
    next_oid s' = next_oid s ->
    registry_change s s'
| registry_added (u : string) :
    relays (self s') = dict_set u (next_oid s) (relays (self s)) ->
    next_oid s' = S (next_oid s) ->
    url (objects s' (next_oid s)) = u ->
    relay_message_pool (objects s' (next_oid s)) = message_pool (self s) ->
    on_open_callback (objects s' (next_oid s)) = on_relay_open (self s) ->
    on_close_callback (objects s' (next_oid s)) = on_relay_close (self s) ->
    registry_change s s'
| registry_removed (u : string) :
    relays (self s') = dict_remove u (relays (self s)) ->
    next_oid s' = next_oid s ->
    registry_change s s'.

(** The effect of one call that takes [s] to [s'] and makes the calls
    [delta]. *)
Definition step_effect (s s' : State) (delta : list Call) : Prop :=
  history s' = history s ++ delta
  /\ lock_trace false delta = Some false
  /\ touches_only (next_oid s :: dict_values (relays (self s))) delta
  /\ (forall o, o ∉ next_oid s :: dict_values (relays (self s)) ->
                objects s' o = objects s o)
  /\ (forall o, o <> next_oid s ->
                same_identity (objects s o) (objects s' o))
  /\ same_config (self s) (self s')
  /\ registry_change s s'.

(** The [publish] calls of a history: relay object and message, in order. *)
Definition publishes (h : list Call) : list (nat * string) :=
  omap (fun c => match c with Publish o m => Some (o, m) | _ => None end) h.


(** A relay object that has been built and is registered under no url. *)
Definition orphan (s : State) (o : nat) : Prop :=
  o < next_oid s /\ o ∉ dict_values (relays (self s)).

(** The relay registered under [u] was built for [u] by this manager: it
    has the manager's message pool and callbacks. *)
Definition built_for (s : State) (u : string) (o : nat) : Prop :=
  url (objects s o) = u
  /\ relay_message_pool (objects s o) = message_pool (self s)
  /\ on_open_callback (objects s o) = on_relay_open (self s)
  /\ on_close_callback (objects s o) = on_relay_close (self s).

(** ** Dictionaries *)

Lemma dict_get_set_eq {V} (k : string) (v : V) (d : dict V) :
  dict_get k (dict_set k v d) = Some v.
Proof.
  induction d as [|[k' v'] d IH]; simpl.
  - by rewrite decide_True.
  - destruct (decide (k = k')) as [->|Hne]; simpl.
    + by rewrite decide_True.
    + by rewrite decide_False.
Qed.

Lemma dict_get_set_ne {V} (k k' : string) (v : V) (d : dict V) :
  k <> k' -> dict_get k' (dict_set k v d) = dict_get k' d.
Proof.
  intros Hne. induction d as [|[k0 v0] d IH]; simpl.
  - rewrite decide_False; [done | congruence].
  - destruct (decide (k = k0)) as [->|Hne0]; simpl.
    + rewrite !decide_False; [done | congruence | congruence].
    + destruct (decide (k' = k0)); [done | apply IH].
Qed.

Lemma dict_get_remove_eq {V} (k : string) (d : dict V) :
  dict_get k (dict_remove k d) = None.
Proof.
  unfold dict_remove. induction d as [|[k' v'] d IH]; [done|].
  rewrite filter_cons. case_decide as Hk; simpl in *; [|done].
  rewrite decide_False; [apply IH | congruence].
Qed.

Lemma dict_get_remove_ne {V} (k k' : string) (d : dict V) :
  k <> k' -> dict_get k' (dict_remove k d) = dict_get k' d.
Proof.
  intros Hne. unfold dict_remove.
  induction d as [|[k0 v0] d IH]; [done|].
  rewrite filter_cons. case_decide as Hk; simpl in *.
  - destruct (decide (k' = k0)); [done | apply IH].
  - subst k0.
    rewrite decide_False; [apply IH | congruence].
Qed.

Lemma dict_contains_true {V} (k : string) (d : dict V) :
  dict_contains k d = true <-> is_Some (dict_get k d).
Proof.
  unfold dict_contains. destruct (dict_get k d); split; intros H;
    first [done | by eexists | by destruct H].
Qed.

Lemma dict_contains_false {V} (k : string) (d : dict V) :
  dict_contains k d = false <-> dict_get k d = None.
Proof. unfold dict_contains. by destruct (dict_get k d). Qed.

Lemma dict_get_Some_elem {V} (k : string) (v : V) (d : dict V) :
  dict_get k d = Some v -> (k, v) ∈ d.
Proof.
  induction d as [|[k' v'] d IH]; simpl; [done|].
  destruct (decide (k = k')) as [->|Hne].
  - intros [= ->]. apply list_elem_of_here.
  - intros H. apply list_elem_of_further, IH, H.
Qed.

Lemma dict_get_Some_value {V} (k : string) (v : V) (d : dict V) :
  dict_get k d = Some v -> v ∈ dict_values d.
Proof.
  intros H%dict_get_Some_elem. unfold dict_values.
  apply list_elem_of_fmap. by exists (k, v).
Qed.

Lemma dict_get_Some_key {V} (k : string) (v : V) (d : dict V) :
  dict_get k d = Some v -> k ∈ dict_keys d.
Proof.
  intros H%dict_get_Some_elem. unfold dict_keys.
  apply list_elem_of_fmap. by exists (k, v).
Qed.

Lemma dict_get_None_key {V} (k : string) (d : dict V) :
  dict_get k d = None <-> k ∉ dict_keys d.
Proof.
  induction d as [|[k' v'] d IH]; simpl.
  - split; [intros _; apply not_elem_of_nil | done].
  - rewrite not_elem_of_cons. destruct (decide (k = k')) as [->|Hne].
    + split; [done | by intros [? _]].
    + rewrite IH. tauto.
Qed.

Lemma dict_elem_get {V} (k : string) (v : V) (d : dict V) :
  NoDup (dict_keys d) -> (k, v) ∈ d -> dict_get k d = Some v.
Proof.
  induction d as [|[k' v'] d IH]; simpl.
  - intros _ H. by apply elem_of_nil in H.
  - intros [Hnotin Hnd]%NoDup_cons [Heq|Hin]%elem_of_cons.
    + injection Heq as -> ->. by rewrite decide_True.
    + destruct (decide (k = k')) as [->|Hne]; [|by apply IH].
      exfalso. apply Hnotin. apply list_elem_of_fmap. by exists (k', v).
Qed.

Lemma dict_value_has_key {V} (v : V) (d : dict V) :
  NoDup (dict_keys d) -> v ∈ dict_values d -> exists k, dict_get k d = Some v.
Proof.
  intros Hnd [[k v'] [-> Hin]]%list_elem_of_fmap.
  exists k. by apply dict_elem_get.
Qed.

(** ** Calls on one relay object *)

Lemma calls_on_app (o : nat) (h1 h2 : list Call) :
  calls_on o (h1 ++ h2) = calls_on o h1 ++ calls_on o h2.
Proof. apply filter_app. Qed.

(** Calls that are all made on [x] are kept by [calls_on x] and dropped by
    [calls_on o] for any other [o]. *)
Lemma calls_on_own (o x : nat) (h : list Call) :
  Forall (fun c => target c = Some x) h ->
  calls_on o h = if decide (o = x) then h else [].
Proof.
  unfold calls_on. induction 1 as [|c h Hc _ IH]; simpl.
  - by destruct (decide (o = x)).
  - rewrite filter_cons, IH, Hc.
    destruct (decide (o = x)) as [->|Hne].
    + by rewrite decide_True.
    + rewrite decide_False; [done | congruence].
Qed.

Lemma calls_on_flat_map (emit : nat -> list Call) (xs : list nat) (o : nat) :
  NoDup xs ->
  (forall x, Forall (fun c => target c = Some x) (emit x)) ->
  calls_on o (flat_map emit xs) = if decide (o ∈ xs) then emit o else [].
Proof.
  intros Hnd Hemit. induction Hnd as [|x xs Hx Hnd IH].
  - rewrite decide_False; [done | apply not_elem_of_nil].
  - change (flat_map emit (x :: xs)) with (emit x ++ flat_map emit xs).
    rewrite calls_on_app, IH, (calls_on_own o x) by apply Hemit.
    pose proof (elem_of_cons xs o x) as Hcons.
    destruct (decide (o = x)) as [->|Hne];
      destruct (decide (_ ∈ xs)); destruct (decide (_ ∈ _ :: xs));
      rewrite ?app_nil_r; simpl; try done; exfalso; tauto.
Qed.

(** The calls on [o] in a critical section are those of its body. *)
Lemma calls_on_section (o : nat) (body rest : list Call) :
  Forall (fun c => target c = None) rest ->
  calls_on o (LockAcquire :: body ++ LockRelease :: rest) = calls_on o body.
Proof.
  intros Hrest. change (LockAcquire :: body ++ LockRelease :: rest)
    with ([LockAcquire] ++ body ++ [LockRelease] ++ rest).
  rewrite !calls_on_app.
  assert (calls_on o rest = []) as ->.
  { unfold calls_on. induction Hrest as [|c r Hc _ IH]; [done|].
    rewrite filter_cons, IH, Hc. by rewrite decide_False. }
  unfold calls_on at 1 3. simpl. apply app_nil_r.
Qed.

(** A critical section whose body only calls relay object [x]. *)
Lemma calls_on_section_own (o x : nat) (body : list Call) :
  Forall (fun c => target c = Some x) body ->
  calls_on o (LockAcquire :: body ++ [LockRelease])
  = if decide (o = x) then body else [].
Proof.
  intros H. rewrite calls_on_section by constructor.
  by apply calls_on_own.
Qed.

Lemma flat_map_ext_elem {A B} (f g : A -> list B) (xs : list A) :
  (forall x, x ∈ xs -> f x = g x) -> flat_map f xs = flat_map g xs.
Proof.
  induction xs as [|x xs IH]; simpl; [done|]. intros H.
  rewrite (H x) by apply list_elem_of_here.
  rewrite IH; [done|]. intros y Hy. by apply H, list_elem_of_further.
Qed.

(** ** Loops over the registered relays *)

Lemma for_each_local (body : nat -> M unit) emit R (xs : list nat) :
  local body emit R ->
  NoDup xs ->
  forall s, exists s',
    for_each xs body s = (Ok tt, s')
    /\ self s' = self s
    /\ next_oid s' = next_oid s
    /\ history s' = history s ++ flat_map (fun o => emit (objects s o) o) xs
    /\ (forall o, o ∉ xs -> objects s' o = objects s o)
    /\ (forall o, o ∈ xs -> R (objects s o) (objects s' o)).
Proof.
  intros Hloc Hnd. induction Hnd as [|x xs Hx Hnd IH]; intros s.
  - exists s. simpl. rewrite app_nil_r. repeat split; try done.
    intros o Ho. by apply elem_of_nil in Ho.
  - destruct (Hloc x s) as (s1 & Hrun1 & Hself1 & Hnext1 & Hh1 & Hoth1 & HR1).
    destruct (IH s1) as (s' & Hrun & Hself & Hnext & Hh & Hoth & HR).
    exists s'. simpl. unfold mbind, M_bind, bind. rewrite Hrun1.
    split; [exact Hrun|]. split; [congruence|]. split; [congruence|].
    split; [|split].
    + rewrite Hh, Hh1, <- app_assoc. do 2 f_equal.
      apply flat_map_ext_elem. intros o Ho.
      rewrite Hoth1; [done|]. intros ->. done.
    + intros o [Hne Ho]%not_elem_of_cons.
      rewrite Hoth by done. by apply Hoth1.
    + intros o [->|Ho]%elem_of_cons.
      * rewrite Hoth by done. exact HR1.
      * rewrite <- (Hoth1 o) by (intros ->; done). by apply HR.
Qed.

(** The bodies of the manager's loops are local. *)

Lemma publish_body_local (message : string) :
  local
    (fun relay =>
       r ← deref relay;
       if should_write (policy r) then Relay_publish relay message
       else mret tt)
    (fun r o => if should_write (policy r) then [Publish o message] else [])
    (fun r r' => r' = r).
Proof.
  intros o s. run.
  destruct (should_write (policy (objects s o))); eexists;
    (split; [reflexivity|]); simpl; rewrite ?app_nil_r; done.
Qed.

Lemma subscribe_body_local (id : string) (filters : Filters) :
  local
    (fun relay =>
       r ← deref relay;
       if should_read (policy r) then
         Relay_add_subscription relay id filters ;;
         Relay_publish relay (Request_to_message id filters)
       else mret tt)
    (fun r o =>
       if should_read (policy r)
       then [AddSubscription o id filters;
             Publish o (Request_to_message id filters)]
       else [])
    (fun r r' =>
       r' = if should_read (policy r)
            then set_subscriptions
                   (dict_set id {| sub_id := id; sub_filters := filters |}
                      (subscriptions r)) r
            else r).
Proof.
  intros o s. run.
  destruct (should_read (policy (objects s o))); eexists;
    (split; [reflexivity|]); simpl; rewrite ?app_nil_r, <- ?app_assoc.
  - repeat split; try done.
    + intros o' Hne. by rewrite fn_lookup_insert_ne.
    + by rewrite fn_lookup_insert.
  - done.
Qed.

Lemma unsubscribe_body_local (id : string) :
  local
    (fun relay =>
       Relay_close_subscription relay id ;;
       Relay_publish relay (close_message id))
    (fun _ o => [CloseSubscription o id; Publish o (close_message id)])
    (fun r r' => r' = set_subscriptions (dict_remove id (subscriptions r)) r).
Proof.
  intros o s. run. eexists. split; [reflexivity|]. simpl.
  rewrite <- app_assoc. repeat split; try done.
  - intros o' Hne. by rewrite fn_lookup_insert_ne.
  - by rewrite fn_lookup_insert.
Qed.

Lemma close_body_local :
  local Relay_close (fun _ o => [Close o])
    (fun r r' => r' = set_connected false r).
Proof.
  intros o s. run. eexists. split; [reflexivity|]. simpl.
  repeat split; try done.
  - intros o' Hne. by rewrite fn_lookup_insert_ne.
  - by rewrite fn_lookup_insert.
Qed.

Lemma monitor_body_local :
  local
    (fun relay =>
       up ← Relay_is_connected relay;
       if negb up then Relay_connect relay true else mret tt)
    (fun r o => if connected r then [] else [Connect o true])
    (fun r r' =>
       if connected r then r' = r else exists up, r' = set_connected up r).
Proof.
  intros o s. run.
  destruct (connected (objects s o)) eqn:Hc; eexists;
    (split; [reflexivity|]); simpl; rewrite ?app_nil_r.
  - done.
  - repeat split; try done.
    + intros o' Hne. by rewrite fn_lookup_insert_ne.
    + rewrite fn_lookup_insert. by eexists.
Qed.

(** Looking every key of a dictionary up gives its values. *)
Lemma dict_lookup_keys {V} (d : dict V) :
  NoDup (dict_keys d) ->
  Forall2 (fun k v => dict_get k d = Some v) (dict_keys d) (dict_values d).
Proof.
  intros Hnd. unfold dict_keys, dict_values.
  assert (forall kv, kv ∈ d -> dict_get kv.1 d = Some kv.2) as Hall.
  { intros [k v] Hin. by apply dict_elem_get. }
  clear Hnd. revert Hall. generalize d at 1 4 5 as d0.
  induction d0 as [|[k v] d0 IH]; intros Hall; constructor.
  - apply (Hall (k, v)), list_elem_of_here.
  - apply IH. intros kv Hin. by apply Hall, list_elem_of_further.
Qed.

(** [for url in self.relays: relay = self.relays[url]; body(relay)] visits
    the registered objects in order, as long as the body leaves the manager's
    fields alone. *)
Lemma for_each_getitem (body : nat -> M unit) (ks : list string)
    (os : list nat) :
  (forall o s, self (body o s).2 = self s) ->
  forall s,
    Forall2 (fun k o => dict_get k (relays (self s)) = Some o) ks os ->
    for_each ks (fun url => relay ← getitem url; body relay) s
    = for_each os body s.
Proof.
  intros Hself s H.
  remember (relays (self s)) as d eqn:Hd. revert s Hd.
  induction H as [|k o ks os Hk _ IH]; intros s ->; [done|].
  simpl. unfold getitem, get_self, mbind, M_bind, bind. simpl.
  rewrite Hk. simpl.
  pose proof (Hself o s) as Hs.
  destruct (body o s) as [[[]|e] s1]; [|done].
  apply IH. simpl in Hs. by rewrite Hs.
Qed.

(** ** Well-formed states are kept *)

Lemma wf_post_init interval on_open on_close :
  wf (post_init interval on_open on_close).
Proof. repeat split; simpl; constructor. Qed.

(** A method that leaves the registry and the allocation pointer alone and
    only calls allocated objects keeps the state well formed. *)
Lemma wf_frame (s s' : State) (delta : list Call) :
  wf s ->
  relays (self s') = relays (self s) ->
  next_oid s' = next_oid s ->
  history s' = history s ++ delta ->
  Forall (allocated (next_oid s)) delta ->
  wf s'.
Proof.
  intros (Hk & Hv & Hlt & Hh) Hrel Hnext Hhist Hdelta.
  unfold wf. rewrite Hrel, Hnext, Hhist.
  repeat split; try done. apply Forall_app. by split.
Qed.

Lemma allocated_mono (n n' : nat) (c : Call) :
  n <= n' -> allocated n c -> allocated n' c.
Proof. unfold allocated. destruct (target c); [lia | done]. Qed.

Lemma allocated_flat_map emit (objs : nat -> Relay) (n : nat)
    (xs : list nat) :
  targets_own emit ->
  Forall (fun o => o < n) xs ->
  Forall (allocated n) (flat_map (fun o => emit (objs o) o) xs).
Proof.
  intros Hown. induction 1 as [|x xs Hx _ IH]; simpl; [constructor|].
  apply Forall_app. split; [|exact IH].
  eapply Forall_impl; [apply Hown|]. intros c Hc. unfold allocated.
  by rewrite Hc.
Qed.

Lemma bind_Ok {A B} (c : M A) (k : A -> M B) (s s1 : State) (a : A) :
  c s = (Ok a, s1) -> (c ≫= k) s = k a s1.
Proof. intros H. unfold mbind, M_bind, bind. by rewrite H. Qed.

Lemma with_lock_run {A} (body : M A) (s s2 : State) (r : result A) :
  body (with_history (history s ++ [LockAcquire]) s) = (r, s2) ->
  with_lock body s = (r, with_history (history s2 ++ [LockRelease]) s2).
Proof. intros H. unfold with_lock, log. simpl. by rewrite H. Qed.

(** A loop over [self.relays.values()] run under the lock. *)
Lemma locked_loop (body : nat -> M unit) emit R (s : State) :
  local body emit R ->
  targets_own emit ->
  wf s ->
  exists s' delta,
    with_lock (m ← get_self; for_each (dict_values (relays m)) body) s
    = (Ok tt, s')
    /\ self s' = self s
    /\ next_oid s' = next_oid s
    /\ history s' = history s ++ delta
    /\ delta = LockAcquire
               :: flat_map (fun o => emit (objects s o) o)
                    (dict_values (relays (self s)))
               ++ [LockRelease]
    /\ (forall o, calls_on o delta
                  = if decide (o ∈ dict_values (relays (self s)))
                    then emit (objects s o) o else [])
    /\ (forall o, o ∉ dict_values (relays (self s)) ->
                  objects s' o = objects s o)
    /\ (forall o, o ∈ dict_values (relays (self s)) ->
                  R (objects s o) (objects s' o))
    /\ wf s'.
Proof.
  intros Hloc Hown Hwf. pose proof Hwf as (Hk & Hv & Hlt & Hh).
  destruct (for_each_local body emit R _ Hloc Hv
              (with_history (history s ++ [LockAcquire]) s))
    as (s2 & Hrun & Hself & Hnext & Hhist & Hoth & HR).
  simpl in *.
  exists (with_history (history s2 ++ [LockRelease]) s2). eexists.
  split; [by apply with_lock_run|].
  split; [done|]. split; [done|].
  assert (history s2 ++ [LockRelease]
          = history s ++ LockAcquire
              :: flat_map (fun o => emit (objects s o) o)
                   (dict_values (relays (self s))) ++ [LockRelease])
    as Hdelta.
  { rewrite Hhist, <- !app_assoc. done. }
  split; [exact Hdelta|]. split; [reflexivity|].
  split; [|split; [done|split; [done|]]].
  - intros o. rewrite (calls_on_section o _ []) by constructor.
    apply (calls_on_flat_map (fun o => emit (objects s o) o)); [done|].
    intros x. apply Hown.
  - eapply wf_frame; [exact Hwf|by simpl; rewrite Hself|done|exact Hdelta|].
    constructor; [done|]. apply Forall_app. split.
    + by apply allocated_flat_map.
    + by repeat constructor.
Qed.

(** The registry after [self.relays[url] = relay] and after [pop]. *)

Lemma dict_set_keys {V} (k : string) (v : V) (d : dict V) :
  dict_keys (dict_set k v d)
  = if decide (k ∈ dict_keys d) then dict_keys d else dict_keys d ++ [k].
Proof.
  unfold dict_keys. induction d as [|[k' v'] d IH].
  - rewrite decide_False; [done | apply not_elem_of_nil].
  - pose proof (elem_of_cons (d.*1) k k') as Hcons.
    cbn [dict_set]. destruct (decide (k = k')) as [->|Hne];
      rewrite !fmap_cons; cbn [fst].
    + rewrite decide_True; [done | apply list_elem_of_here].
    + rewrite IH. destruct (decide (k ∈ d.*1));
        destruct (decide (k ∈ k' :: d.*1)); try done; exfalso; tauto.
Qed.

Lemma dict_set_keys_NoDup {V} (k : string) (v : V) (d : dict V) :
  NoDup (dict_keys d) -> NoDup (dict_keys (dict_set k v d)).
Proof.
  intros Hnd. rewrite dict_set_keys. case_decide as Hk; [done|].
  apply NoDup_app. split; [done|]. split; [|apply NoDup_singleton].
  intros x Hx ->%list_elem_of_singleton. done.
Qed.

Lemma dict_set_values_elem {V} (k : string) (v x : V) (d : dict V) :
  x ∈ dict_values (dict_set k v d) -> x = v \/ x ∈ dict_values d.
Proof.
  unfold dict_values. induction d as [|[k' v'] d IH]; simpl.
  - intros ->%list_elem_of_singleton. by left.
  - destruct (decide (k = k')); simpl; rewrite !elem_of_cons; [tauto|].
    intros [->|Hin]; [tauto|]. apply IH in Hin. tauto.
Qed.

Lemma dict_set_values_NoDup {V} (k : string) (v : V) (d : dict V) :
  v ∉ dict_values d ->
  NoDup (dict_values d) -> NoDup (dict_values (dict_set k v d)).
Proof.
  unfold dict_values. induction d as [|[k' v'] d IH]; simpl.
  - intros _ _. apply NoDup_singleton.
  - intros [Hne Hnotin]%not_elem_of_cons [Hv' Hnd]%NoDup_cons.
    destruct (decide (k = k')); simpl; apply NoDup_cons.
    + done.
    + split; [|by apply IH]. intros [->|Hin]%dict_set_values_elem; done.
Qed.

Lemma dict_remove_sublist {V} (k : string) (d : dict V) :
  dict_remove k d `sublist_of` d.
Proof. apply sublist_filter. Qed.

Lemma dict_remove_keys_NoDup {V} (k : string) (d : dict V) :
  NoDup (dict_keys d) -> NoDup (dict_keys (dict_remove k d)).
Proof.
  intros Hnd. eapply sublist_NoDup; [exact Hnd|].
  apply fmap_sublist, dict_remove_sublist.
Qed.

Lemma dict_remove_values_NoDup {V} (k : string) (d : dict V) :
  NoDup (dict_values d) -> NoDup (dict_values (dict_remove k d)).
Proof.
  intros Hnd. eapply sublist_NoDup; [exact Hnd|].
  apply fmap_sublist, dict_remove_sublist.
Qed.

Lemma dict_remove_values_elem {V} (k : string) (x : V) (d : dict V) :
  x ∈ dict_values (dict_remove k d) -> x ∈ dict_values d.
Proof.
  intros H. eapply elem_of_sublist; [exact H|].
  apply fmap_sublist, dict_remove_sublist.
Qed.

(** ** The methods, run *)

Lemma add_relay_run (u : string) (p : RelayPolicy) (ssl : option json)
    (proxy : option RelayProxyConnectionConfig) (s : State) :
  exists s' up,
    add_relay u p ssl proxy s = (Ok tt, s')
    /\ self s' = set_relays (dict_set u (next_oid s) (relays (self s))) (self s)
    /\ next_oid s' = S (next_oid s)
    /\ history s'
       = history s ++ [LockAcquire; Connect (next_oid s) false; LockRelease]
    /\ objects s' (next_oid s)
       = {| url := u; relay_message_pool := message_pool (self s);
            policy := p; ssl_options := ssl; proxy_config := proxy;
            on_open_callback := on_relay_open (self s);
            on_close_callback := on_relay_close (self s);
            subscriptions := []; connected := up |}
    /\ (forall o, o <> next_oid s -> objects s' o = objects s o).
Proof.
  unfold add_relay, new_Relay. run. do 2 eexists.
  split; [reflexivity|]. simpl. rewrite <- !app_assoc.
  repeat split.
  - rewrite !fn_lookup_insert. reflexivity.
  - intros o Hne. by rewrite !fn_lookup_insert_ne.
Qed.

Lemma add_relay_wf (u : string) (p : RelayPolicy) (ssl : option json)
    (proxy : option RelayProxyConnectionConfig) (s : State) :
  wf s -> wf (add_relay u p ssl proxy s).2.
Proof.
  intros (Hk & Hv & Hlt & Hh).
  destruct (add_relay_run u p ssl proxy s)
    as (s' & up & -> & Hself & Hnext & Hhist & _).
  unfold wf. simpl. rewrite Hself, Hnext, Hhist. simpl.
  assert (next_oid s ∉ dict_values (relays (self s))) as Hfresh.
  { intros Hin. rewrite Forall_forall in Hlt. apply Hlt in Hin. lia. }
  repeat split.
  - by apply dict_set_keys_NoDup.
  - by apply dict_set_values_NoDup.
  - apply Forall_forall. intros x [->|Hin]%dict_set_values_elem; [lia|].
    rewrite Forall_forall in Hlt. apply Hlt in Hin. lia.
  - apply Forall_app. split.
    + eapply Forall_impl; [exact Hh|]. intros c.
      apply allocated_mono. lia.
    + repeat constructor.
Qed.

Lemma remove_relay_absent (u : string) (s : State) :
  dict_get u (relays (self s)) = None ->
  remove_relay u s
  = (Ok tt, with_history (history s ++ [LockAcquire; LockRelease]) s).
Proof.
  intros H. unfold remove_relay. run.
  apply dict_contains_false in H. rewrite H. simpl.
  unfold with_history. simpl. by rewrite <- app_assoc.
Qed.

Lemma remove_relay_present (u : string) (o : nat) (s : State) :
  dict_get u (relays (self s)) = Some o ->
  remove_relay u s
  = (Ok tt,
     with_history (history s ++ [LockAcquire; Close o; LockRelease])
       (with_objects (<[o := set_connected false (objects s o)]> (objects s))
          (with_self (set_relays (dict_remove u (relays (self s))) (self s))
             s))).
Proof.
  intros H. unfold remove_relay. run.
  unfold dict_contains. repeat (rewrite ?H; simpl).
  unfold with_history, with_objects, with_self. simpl.
  by rewrite <- !app_assoc.
Qed.

Lemma remove_relay_wf (u : string) (s : State) :
  wf s -> wf (remove_relay u s).2.
Proof.
  intros Hwf. pose proof Hwf as (Hk & Hv & Hlt & Hh).
  destruct (dict_get u (relays (self s))) as [o|] eqn:Hget.
  - rewrite (remove_relay_present u o) by done. unfold wf. simpl.
    repeat split.
    + by apply dict_remove_keys_NoDup.
    + by apply dict_remove_values_NoDup.
    + apply Forall_forall. intros x Hin%dict_remove_values_elem.
      rewrite Forall_forall in Hlt. by apply Hlt.
    + apply Forall_app. split; [done|]. repeat constructor.
      unfold allocated. simpl. rewrite Forall_forall in Hlt.
      by apply Hlt, (dict_get_Some_value u).
  - rewrite remove_relay_absent by done.
    eapply wf_frame; [exact Hwf|done|done|done|by repeat constructor].
Qed.

Lemma add_subscription_on_relay_unknown (u id : string) (f : Filters)
    (s : State) :
  dict_get u (relays (self s)) = None ->
  add_subscription_on_relay u id f s
  = (Raise (RelayException ("Invalid relay url: no connection to " +:+ u)),
     with_history (history s ++ [LockAcquire; LockRelease]) s).
Proof.
  intros H. unfold add_subscription_on_relay. run.
  apply dict_contains_false in H. rewrite H. simpl.
  unfold with_history. simpl. by rewrite <- app_assoc.
Qed.

Lemma add_subscription_on_relay_unreadable (u id : string) (f : Filters)
    (o : nat) (s : State) :
  dict_get u (relays (self s)) = Some o ->
  should_read (policy (objects s o)) = false ->
  add_subscription_on_relay u id f s
  = (Raise (RelayException
              ("Could not send request: " +:+ u
               +:+ " is not configured to read from")),
     with_history (history s ++ [LockAcquire; LockRelease]) s).
Proof.
  intros H Hr. unfold add_subscription_on_relay. run.
  unfold dict_contains. repeat (rewrite ?H, ?Hr; simpl).
  unfold with_history. simpl. by rewrite <- app_assoc.
Qed.

Lemma add_subscription_on_relay_readable (u id : string) (f : Filters)
    (o : nat) (s : State) :
  dict_get u (relays (self s)) = Some o ->
  should_read (policy (objects s o)) = true ->
  add_subscription_on_relay u id f s
  = (Ok tt,
     with_history
       (history s ++ [LockAcquire; AddSubscription o id f;
                      Publish o (Request_to_message id f); LockRelease])
       (with_objects
          (<[o := set_subscriptions
                    (dict_set id {| sub_id := id; sub_filters := f |}
                       (subscriptions (objects s o))) (objects s o)]>
             (objects s)) s)).
Proof.
  intros H Hr. unfold add_subscription_on_relay. run.
  unfold dict_contains. repeat (rewrite ?H, ?Hr; simpl).
  unfold with_history, with_objects. simpl. by rewrite <- !app_assoc.
Qed.

Lemma close_subscription_on_relay_unknown (u id : string) (s : State) :
  dict_get u (relays (self s)) = None ->
  close_subscription_on_relay u id s
  = (Raise (RelayException ("Invalid relay url: no connection to " +:+ u)),
     with_history (history s ++ [LockAcquire; LockRelease]) s).
Proof.
  intros H. unfold close_subscription_on_relay. run.
  apply dict_contains_false in H. rewrite H. simpl.
  unfold with_history. simpl. by rewrite <- app_assoc.
Qed.

Lemma close_subscription_on_relay_known (u id : string) (o : nat)
    (s : State) :
  dict_get u (relays (self s)) = Some o ->
  close_subscription_on_relay u id s
  = (Ok tt,
     with_history
       (history s ++ [LockAcquire; CloseSubscription o id;
                      Publish o (close_message id); LockRelease])
       (with_objects
          (<[o := set_subscriptions
                    (dict_remove id (subscriptions (objects s o)))
                    (objects s o)]>
             (objects s)) s)).
Proof.
  intros H. unfold close_subscription_on_relay. run.
  unfold dict_contains. repeat (rewrite ?H; simpl).
  unfold with_history, with_objects. simpl. by rewrite <- !app_assoc.
Qed.

Lemma publish_event_unsigned (event : Event) (s : State) :
  signature event = None ->
  publish_event event s
  = (Raise (RelayException
              ("Could not publish " +:+ event_id event
               +:+ ": must be signed")), s).
Proof. intros H. unfold publish_event. by rewrite H. Qed.

Lemma publish_event_unverified (event : Event) (sig : string) (s : State) :
  signature event = Some sig ->
  verify event = false ->
  publish_event event s
  = (Raise (RelayException
              ("Could not publish " +:+ event_id event
               +:+ ": failed to verify signature " +:+ sig)), s).
Proof. intros H Hv. unfold publish_event. by rewrite H, Hv. Qed.

Lemma publish_event_verified (event : Event) (sig : string) (s : State) :
  signature event = Some sig ->
  verify event = true ->
  publish_event event s
  = with_lock (
      m ← get_self;
      for_each (dict_values (relays m)) (fun relay =>
        r ← deref relay;
        if should_write (policy r) then
          Relay_publish relay (Event_to_message event)
        else mret tt)) s.
Proof. intros H Hv. unfold publish_event. by rewrite H, Hv. Qed.

Lemma close_all_relay_connections_as_values (s : State) :
  NoDup (dict_keys (relays (self s))) ->
  close_all_relay_connections s
  = with_lock (m ← get_self; for_each (dict_values (relays m)) Relay_close) s.
Proof.
  intros Hnd. unfold close_all_relay_connections, with_lock.
  destruct (log LockAcquire s) as [r0 s1] eqn:Hlog.
  assert (self s1 = self s) as Hself by (by injection Hlog as _ <-).
  unfold mbind at 1 3, M_bind, bind at 1 3, get_self. simpl.
  rewrite (for_each_getitem Relay_close _ (dict_values (relays (self s1))));
    [done|done|].
  rewrite Hself. by apply dict_lookup_keys.
Qed.

(** The guard [len(self.relays) > 0] of the monitor only skips an empty
    loop. *)
Lemma monitor_guard (body : nat -> M unit) (s : State) :
  with_lock (
    m ← get_self;
    if Nat.ltb 0 (length (relays m)) then
      for_each (dict_values (relays m)) body
    else mret tt) s
  = with_lock (m ← get_self; for_each (dict_values (relays m)) body) s.
Proof.
  unfold with_lock, mbind, M_bind, bind, get_self, log. simpl.
  by destruct (relays (self s)).
Qed.

Lemma slept_no_relay (secs : Z) :
  Forall (fun c => target c = None) (slept secs).
Proof. unfold slept. destruct (sleep_error secs); by repeat constructor. Qed.

Lemma time_sleep_run (secs : Z) (s : State) :
  time_sleep secs s
  = (sleep_result secs tt, with_history (history s ++ slept secs) s).
Proof.
  unfold time_sleep, sleep_result, slept.
  destruct (sleep_error secs); [|done].
  unfold raise. destruct s. unfold with_history. simpl.
  by rewrite app_nil_r.
Qed.

Lemma monitor_poll_run (s : State) :
  wf s ->
  exists s' delta,
    monitor_poll s
    = (sleep_result (connection_monitor_interval_secs (self s)) tt, s')
    /\ self s' = self s
    /\ next_oid s' = next_oid s
    /\ history s' = history s ++ delta
    /\ delta = LockAcquire
               :: flat_map
                    (fun o => if connected (objects s o) then []
                              else [Connect o true])
                    (dict_values (relays (self s)))
               ++ LockRelease
                  :: slept (connection_monitor_interval_secs (self s))
    /\ (forall o, calls_on o delta
                  = if decide (o ∈ dict_values (relays (self s)))
                    then (if connected (objects s o) then []
                          else [Connect o true])
                    else [])
    /\ (forall o, o ∉ dict_values (relays (self s)) ->
                  objects s' o = objects s o)
    /\ (forall o, o ∈ dict_values (relays (self s)) ->
                  if connected (objects s o) then objects s' o = objects s o
                  else exists up,
                      objects s' o = set_connected up (objects s o))
    /\ wf s'.
Proof.
  intros Hwf.
  destruct (locked_loop _ _ _ s monitor_body_local) as
    (s2 & d & Hrun & Hself & Hnext & Hhist & -> & Hcalls & Hoth & HR & Hwf2);
    [|done|].
  { intros r o. destruct (connected r); repeat constructor. }
  exists (with_history
            (history s2
             ++ slept (connection_monitor_interval_secs (self s))) s2).
  eexists.
  split.
  { unfold monitor_poll.
    erewrite bind_Ok; [|by rewrite monitor_guard].
    unfold mbind, M_bind, bind, get_self.
    by rewrite time_sleep_run, Hself. }
  split; [done|]. split; [done|].
  split; [|split; [reflexivity|]].
  { cbn [history with_history]. rewrite Hhist, <- app_assoc.
    f_equal. cbn [app]. f_equal. by rewrite <- app_assoc. }
  split; [|split; [done|split; [done|]]].
  - intros o. rewrite calls_on_section by apply slept_no_relay.
    rewrite <- Hcalls. by rewrite (calls_on_section o _ []) by constructor.
  - eapply wf_frame; [exact Hwf2|done|done|done|].
    eapply Forall_impl; [apply slept_no_relay|].
    intros c Hc. unfold allocated. by rewrite Hc.
Qed.





Lemma add_subscription_on_all_relays_wf (id : string) (f : Filters)
    (s : State) :
  wf s -> wf (add_subscription_on_all_relays id f s).2.
Proof.
  intros Hwf.
  destruct (locked_loop _ _ _ s (subscribe_body_local id f)) as
    (s' & d & Hrun & _ & _ & _ & _ & _ & _ & _ & Hwf'); [|done|].
  { intros r o. destruct (should_read (policy r)); repeat constructor. }
  unfold add_subscription_on_all_relays. by rewrite Hrun.
Qed.

Lemma close_subscription_on_all_relays_wf (id : string) (s : State) :
  wf s -> wf (close_subscription_on_all_relays id s).2.
Proof.
  intros Hwf.
  destruct (locked_loop _ _ _ s (unsubscribe_body_local id)) as
    (s' & d & Hrun & _ & _ & _ & _ & _ & _ & _ & Hwf'); [|done|].
  { intros r o. repeat constructor. }
  unfold close_subscription_on_all_relays. by rewrite Hrun.
Qed.

Lemma close_all_relay_connections_wf (s : State) :
  wf s -> wf (close_all_relay_connections s).2.
Proof.
  intros Hwf.
  destruct (locked_loop _ _ _ s close_body_local) as
    (s' & d & Hrun & _ & _ & _ & _ & _ & _ & _ & Hwf'); [|done|].
  { intros r o. repeat constructor. }
  rewrite close_all_relay_connections_as_values by apply Hwf.
  by rewrite Hrun.
Qed.

Lemma publish_event_wf (event : Event) (s : State) :
  wf s -> wf (publish_event event s).2.
Proof.
  intros Hwf. destruct (signature event) as [sig|] eqn:Hsig.
  - destruct (verify event) eqn:Hv.
    + rewrite (publish_event_verified event sig) by done.
      destruct (locked_loop _ _ _ s
                  (publish_body_local (Event_to_message event))) as
        (s' & d & Hrun & _ & _ & _ & _ & _ & _ & _ & Hwf'); [|done|].
      { intros r o. destruct (should_write (policy r)); repeat constructor. }
      by rewrite Hrun.
    + by rewrite (publish_event_unverified event sig).
  - by rewrite publish_event_unsigned.
Qed.

Lemma add_subscription_on_relay_wf (u id : string) (f : Filters) (s : State) :
  wf s -> wf (add_subscription_on_relay u id f s).2.
Proof.
  intros Hwf. pose proof Hwf as (_ & _ & Hlt & _).
  rewrite Forall_forall in Hlt.
  destruct (dict_get u (relays (self s))) as [o|] eqn:Hget.
  - pose proof (Hlt o (dict_get_Some_value u o _ Hget)) as Ho.
    destruct (should_read (policy (objects s o))) eqn:Hr.
    + rewrite (add_subscription_on_relay_readable u id f o) by done.
      eapply wf_frame; [exact Hwf|done|done|done|].
      repeat constructor; exact Ho.
    + rewrite (add_subscription_on_relay_unreadable u id f o) by done.
      eapply wf_frame; [exact Hwf|done|done|done|by repeat constructor].
  - rewrite add_subscription_on_relay_unknown by done.
    eapply wf_frame; [exact Hwf|done|done|done|by repeat constructor].
Qed.

Lemma close_subscription_on_relay_wf (u id : string) (s : State) :
  wf s -> wf (close_subscription_on_relay u id s).2.
Proof.
  intros Hwf. pose proof Hwf as (_ & _ & Hlt & _).
  rewrite Forall_forall in Hlt.
  destruct (dict_get u (relays (self s))) as [o|] eqn:Hget.
  - pose proof (Hlt o (dict_get_Some_value u o _ Hget)) as Ho.
    rewrite (close_subscription_on_relay_known u id o) by done.
    eapply wf_frame; [exact Hwf|done|done|done|].
    repeat constructor; exact Ho.
  - rewrite close_subscription_on_relay_unknown by done.
    eapply wf_frame; [exact Hwf|done|done|done|by repeat constructor].
Qed.

Lemma step_wf (s s' : State) : wf s -> step s s' -> wf s'.
Proof.
  intros Hwf Hstep. destruct Hstep.
  - by apply add_relay_wf.
  - by apply remove_relay_wf.
  - by apply add_subscription_on_relay_wf.
  - by apply add_subscription_on_all_relays_wf.
  - by apply close_subscription_on_relay_wf.
  - by apply close_subscription_on_all_relays_wf.
  - by apply close_all_relay_connections_wf.
  - by apply publish_event_wf.
  - destruct (monitor_poll_run s Hwf) as (s' & d & -> & H). apply H.
Qed.

(** Every state a manager can be in is well formed. *)
Lemma reachable_wf (s : State) : reachable s -> wf s.
Proof.
  induction 1 as [|s s' _ IH Hstep]; [apply wf_post_init|].
  by apply (step_wf s).
Qed.

(** ** More on histories *)

Lemma calls_on_unallocated (n : nat) (h : list Call) :
  Forall (allocated n) h -> calls_on n h = [].
Proof.
  unfold calls_on. induction 1 as [|c h Hc _ IH]; [done|].
  rewrite filter_cons, IH. case_decide as Ht; [|done].
  unfold allocated in Hc. rewrite Ht in Hc. lia.
Qed.




Lemma closed_in_app (h1 h2 : list Call) :
  closed_in (h1 ++ h2) = closed_in h1 ++ closed_in h2.
Proof. apply omap_app. Qed.

Lemma closed_in_closes (xs : list nat) :
  closed_in (flat_map (fun o => [Close o]) xs) = xs.
Proof.
  induction xs as [|x xs IH]; [done|]. simpl.
  unfold closed_in in *. simpl. by rewrite IH.
Qed.

(** ** The specification's properties *)

(** C1. [publish_event] on an event that carries no signature raises and
    leaves the state as it was, so nothing is sent; on an event whose
    signature does not verify it raises likewise (the spec's ValidationError
    is the code's [RelayException]); on an event whose signature verifies it
    returns, and what it passes to [publish] on a registered relay is exactly
    one message, the event's EVENT envelope, when the relay's policy has
    [should_write], and nothing when it has not.  No relay object is
    changed and nothing is called on an unregistered one. *)
Theorem publish_event_spec (event : Event) (s : State) :
  (signature event = None ->
   publish_event event s
   = (Raise (RelayException
               ("Could not publish " +:+ event_id event
                +:+ ": must be signed")), s))
  /\ (forall sig,
        signature event = Some sig ->
        verify event = false ->
        publish_event event s
        = (Raise (RelayException
                    ("Could not publish " +:+ event_id event
                     +:+ ": failed to verify signature " +:+ sig)), s))
  /\ (forall sig,
        signature event = Some sig ->
        verify event = true ->
        wf s ->
        exists s' delta,
          publish_event event s = (Ok tt, s')
          /\ self s' = self s
          /\ (forall o, objects s' o = objects s o)
          /\ history s' = history s ++ delta
          /\ (forall u o,
                dict_get u (relays (self s)) = Some o ->
                published_to o delta
                = if should_write (policy (objects s o))
                  then [json_dumps (JArr [JStr "EVENT"; event_object event])]
                  else [])
          /\ (forall o, o ∉ dict_values (relays (self s)) ->
                        calls_on o delta = [])).
Proof.
  split; [apply publish_event_unsigned|].
  split; [intros sig; apply publish_event_unverified|].
  intros sig Hsig Hv Hwf.
  destruct (locked_loop _ _ _ s
              (publish_body_local (Event_to_message event))) as
    (s' & d & Hrun & Hself & _ & Hhist & _ & Hcalls & Hoth & HR & _);
    [|done|].
  { intros r o. destruct (should_write (policy r)); repeat constructor. }
  exists s', d. rewrite (publish_event_verified event sig) by done.
  split; [done|]. split; [done|]. split; [|split; [done|split]].
  - intros o. destruct (decide (o ∈ dict_values (relays (self s)))).
    + by apply HR.
    + by apply Hoth.
  - intros u o Hget%dict_get_Some_value.
    unfold published_to. rewrite Hcalls, decide_True by done.
    by destruct (should_write (policy (objects s o))).
  - intros o Ho. by rewrite Hcalls, decide_False.
Qed.

(** C2. [add_subscription_on_relay] raises when the url is not registered,
    and when it is registered to a relay whose policy has not [should_read]
    (the spec's PolicyError is the code's [RelayException]); when the relay
    may be read from it returns, the one outbound message of the call is the
    REQ envelope of the subscription, passed to that relay, and the
    subscription is recorded on that relay under its identifier. *)
Theorem add_subscription_on_relay_spec (u id : string) (f : Filters)
    (s : State) :
  (dict_get u (relays (self s)) = None ->
   exists s',
     add_subscription_on_relay u id f s
     = (Raise (RelayException
                 ("Invalid relay url: no connection to " +:+ u)), s'))
  /\ (forall o,
        dict_get u (relays (self s)) = Some o ->
        should_read (policy (objects s o)) = false ->
        exists s',
          add_subscription_on_relay u id f s
          = (Raise (RelayException
                      ("Could not send request: " +:+ u
                       +:+ " is not configured to read from")), s'))
  /\ (forall o,
        dict_get u (relays (self s)) = Some o ->
        should_read (policy (objects s o)) = true ->
        exists s' delta,
          add_subscription_on_relay u id f s = (Ok tt, s')
          /\ self s' = self s
          /\ history s' = history s ++ delta
          /\ outbound delta
             = [json_dumps (JArr (JStr "REQ" :: JStr id :: f))]
          /\ published_to o delta
             = [json_dumps (JArr (JStr "REQ" :: JStr id :: f))]
          /\ calls_on o delta
             = [AddSubscription o id f;
                Publish o (json_dumps (JArr (JStr "REQ" :: JStr id :: f)))]
          /\ dict_get id (subscriptions (objects s' o))
             = Some {| sub_id := id; sub_filters := f |}
          /\ (forall o', o' <> o -> objects s' o' = objects s o')).
Proof.
  split; [|split].
  - intros H. eexists. by apply add_subscription_on_relay_unknown.
  - intros o H Hr. eexists.
    by apply (add_subscription_on_relay_unreadable u id f o).
  - intros o H Hr. do 2 eexists.
    split; [by apply (add_subscription_on_relay_readable u id f o)|]. simpl.
    assert (calls_on o [LockAcquire; AddSubscription o id f;
                        Publish o (Request_to_message id f); LockRelease]
            = [AddSubscription o id f;
               Publish o (Request_to_message id f)]) as Hcalls.
    { etrans; [apply (calls_on_section_own o o [_; _]);
               by repeat constructor|].
      by rewrite decide_True. }
    split; [done|]. split; [done|]. split; [done|].
    split; [unfold published_to; by rewrite Hcalls|].
    split; [exact Hcalls|]. split.
    + rewrite fn_lookup_insert. simpl. apply dict_get_set_eq.
    + intros o' Hne. by rewrite fn_lookup_insert_ne.
Qed.

(** C10. When [add_subscription_on_relay] raises, the url is unknown or its
    relay may not be read from, and the call has changed nothing: the
    manager's fields and every relay object are as before, and the only
    calls made are the acquisition and the release of the lock. *)
Theorem add_subscription_on_relay_failure_atomic (u id : string)
    (f : Filters) (s s' : State) (e : exception) :
  add_subscription_on_relay u id f s = (Raise e, s') ->
  (dict_get u (relays (self s)) = None
   \/ exists o, dict_get u (relays (self s)) = Some o
                /\ should_read (policy (objects s o)) = false)
  /\ self s' = self s
  /\ objects s' = objects s
  /\ next_oid s' = next_oid s
  /\ history s' = history s ++ [LockAcquire; LockRelease].
Proof.
  intros Hrun.
  destruct (dict_get u (relays (self s))) as [o|] eqn:Hget.
  - destruct (should_read (policy (objects s o))) eqn:Hr.
    + rewrite (add_subscription_on_relay_readable u id f o) in Hrun by done.
      discriminate.
    + rewrite (add_subscription_on_relay_unreadable u id f o) in Hrun by done.
      injection Hrun as _ <-. split; [right; by exists o | done].
  - rewrite add_subscription_on_relay_unknown in Hrun by done.
    injection Hrun as _ <-. split; [by left | done].
Qed.

(** C4. [close_subscription_on_relay] raises when the url is not registered
    (the spec's PolicyError is the code's [RelayException]); when it is, the
    call returns whatever the relay's policy: the record of the subscription
    is removed from that relay, the other records are kept, and the calls
    made on it are the removal and then one [publish] of the CLOSE
    envelope. *)
Theorem close_subscription_on_relay_spec (u id : string) (s : State) :
  (dict_get u (relays (self s)) = None ->
   exists s',
     close_subscription_on_relay u id s
     = (Raise (RelayException
                 ("Invalid relay url: no connection to " +:+ u)), s'))
  /\ (forall o,
        dict_get u (relays (self s)) = Some o ->
        exists s',
          close_subscription_on_relay u id s = (Ok tt, s')
          /\ self s' = self s
          /\ history s'
             = history s
               ++ [LockAcquire; CloseSubscription o id;
                   Publish o (json_dumps (JArr [JStr "CLOSE"; JStr id]));
                   LockRelease]
          /\ dict_get id (subscriptions (objects s' o)) = None
          /\ (forall id', id' <> id ->
                dict_get id' (subscriptions (objects s' o))
                = dict_get id' (subscriptions (objects s o)))
          /\ policy (objects s' o) = policy (objects s o)
          /\ (forall o', o' <> o -> objects s' o' = objects s o')).
Proof.
  split.
  - intros H. eexists. by apply close_subscription_on_relay_unknown.
  - intros o H. eexists.
    split; [by apply (close_subscription_on_relay_known u id o)|]. simpl.
    split; [done|]. split; [done|]. rewrite fn_lookup_insert. simpl.
    split; [apply dict_get_remove_eq|].
    split; [intros id' Hne; by apply dict_get_remove_ne|].
    split; [done|]. intros o' Hne. by rewrite fn_lookup_insert_ne.
Qed.

(** C6. [remove_relay] on a url that is not registered returns without
    error and changes nothing: the manager and every relay object are as
    before, the lock alone has been taken and released.  On a registered url
    it returns, the url is no longer registered, the other urls are
    registered as before, and [close] has been called once, on the relay
    that was registered. *)
Theorem remove_relay_spec (u : string) (s : State) :
  (dict_get u (relays (self s)) = None ->
   remove_relay u s
   = (Ok tt, with_history (history s ++ [LockAcquire; LockRelease]) s))
  /\ (forall o,
        dict_get u (relays (self s)) = Some o ->
        exists s',
          remove_relay u s = (Ok tt, s')
          /\ dict_get u (relays (self s')) = None
          /\ (forall u', u' <> u ->
                dict_get u' (relays (self s'))
                = dict_get u' (relays (self s)))
          /\ history s'
             = history s ++ [LockAcquire; Close o; LockRelease]
          /\ objects s' o = set_connected false (objects s o)
          /\ (forall o', o' <> o -> objects s' o' = objects s o')).
Proof.
  split; [apply remove_relay_absent|].
  intros o H. eexists. split; [by apply (remove_relay_present u o)|]. simpl.
  split; [apply dict_get_remove_eq|].
  split; [intros u' Hne; by apply dict_get_remove_ne|].
  split; [done|]. split; [by rewrite fn_lookup_insert|].
  intros o' Hne. by rewrite fn_lookup_insert_ne.
Qed.

(** C3. [add_subscription_on_all_relays] returns without error; on every
    registered relay whose policy has [should_read] the subscription is
    recorded (looking its identifier up on the relay gives it back, the
    other identifiers are as before) and the calls made are the recording
    and one [publish] of the REQ envelope; on every registered relay whose
    policy has not, nothing is recorded and nothing is called.  This holds for every registration
    order: run on the same relays registered in another order, the call
    leaves every relay in the same state, having received the same calls. *)
Theorem add_subscription_on_all_relays_spec (id : string) (f : Filters)
    (s : State) :
  wf s ->
  exists s' delta,
    add_subscription_on_all_relays id f s = (Ok tt, s')
    /\ self s' = self s
    /\ history s' = history s ++ delta
    /\ (forall u o,
          dict_get u (relays (self s)) = Some o ->
          if should_read (policy (objects s o)) then
            objects s' o
            = set_subscriptions
                (dict_set id {| sub_id := id; sub_filters := f |}
                   (subscriptions (objects s o))) (objects s o)
            /\ calls_on o delta
               = [AddSubscription o id f;
                  Publish o (json_dumps (JArr (JStr "REQ" :: JStr id :: f)))]
            /\ dict_get id (subscriptions (objects s' o))
               = Some {| sub_id := id; sub_filters := f |}
            /\ (forall id', id' <> id ->
                  dict_get id' (subscriptions (objects s' o))
                  = dict_get id' (subscriptions (objects s o)))
          else
            objects s' o = objects s o /\ calls_on o delta = []
            /\ (forall id',
                  dict_get id' (subscriptions (objects s' o))
                  = dict_get id' (subscriptions (objects s o))))
    /\ (forall s2,
          wf s2 ->
          objects s2 = objects s ->
          relays (self s2) ≡ₚ relays (self s) ->
          exists s2' delta2,
            add_subscription_on_all_relays id f s2 = (Ok tt, s2')
            /\ history s2' = history s2 ++ delta2
            /\ forall o, objects s2' o = objects s' o
                         /\ calls_on o delta2 = calls_on o delta).
Proof.
  assert (targets_own
            (fun r o =>
               if should_read (policy r)
               then [AddSubscription o id f;
                     Publish o (Request_to_message id f)]
               else [])) as Hown.
  { intros r o. destruct (should_read (policy r)); repeat constructor. }
  intros Hwf.
  destruct (locked_loop _ _ _ s (subscribe_body_local id f) Hown Hwf) as
    (s' & d & Hrun & Hself & _ & Hhist & _ & Hcalls & Hoth & HR & _).
  exists s', d. split; [exact Hrun|]. split; [done|]. split; [done|].
  split.
  - intros u o Hget%dict_get_Some_value.
    rewrite Hcalls, decide_True by done. rewrite (HR o) by done.
    destruct (should_read (policy (objects s o))); [|done].
    split; [done|]. split; [done|]. cbn [subscriptions set_subscriptions].
    split; [apply dict_get_set_eq|].
    intros id' Hne. by apply dict_get_set_ne.
  - intros s2 Hwf2 Hobj Hperm.
    destruct (locked_loop _ _ _ s2 (subscribe_body_local id f) Hown Hwf2) as
      (s2' & d2 & Hrun2 & _ & _ & Hhist2 & _ & Hcalls2 & Hoth2 & HR2 & _).
    exists s2', d2. split; [exact Hrun2|]. split; [done|].
    assert (forall o, o ∈ dict_values (relays (self s2))
                      <-> o ∈ dict_values (relays (self s))) as Hmem.
    { intros o. unfold dict_values. by rewrite Hperm. }
    intros o. rewrite Hcalls, Hcalls2, Hobj.
    destruct (decide (o ∈ dict_values (relays (self s)))) as [Hin|Hnin].
    + rewrite decide_True by (by apply Hmem).
      split; [|done]. rewrite (HR o) by done.
      rewrite (HR2 o) by (by apply Hmem). by rewrite Hobj.
    + rewrite decide_False by (by rewrite Hmem).
      split; [|done]. rewrite (Hoth o) by done.
      rewrite (Hoth2 o) by (by rewrite Hmem). by rewrite Hobj.
Qed.

(** C5. [add_relay] returns; the url is then registered, to a relay object
    that did not exist before and carries the given policy; [connect] has
    been called on that object exactly once, as a first connection; no
    [close] is called, and the relay that was registered under the url
    before, if any, is another object that the call leaves untouched; the
    other urls are registered as before. *)
Theorem add_relay_spec (u : string) (p : RelayPolicy) (ssl : option json)
    (proxy : option RelayProxyConnectionConfig) (s : State) :
  wf s ->
  exists s' delta,
    add_relay u p ssl proxy s = (Ok tt, s')
    /\ dict_get u (relays (self s')) = Some (next_oid s)
    /\ policy (objects s' (next_oid s)) = p
    /\ subscriptions (objects s' (next_oid s)) = []
    /\ connects_on (next_oid s) (history s') = [false]
    /\ history s' = history s ++ delta
    /\ closed_in delta = []
    /\ (forall old,
          dict_get u (relays (self s)) = Some old ->
          old <> next_oid s
          /\ objects s' old = objects s old
          /\ calls_on old delta = [])
    /\ (forall u', u' <> u ->
          dict_get u' (relays (self s')) = dict_get u' (relays (self s))).
Proof.
  intros (Hk & Hv & Hlt & Hh).
  destruct (add_relay_run u p ssl proxy s)
    as (s' & up & Hrun & Hself & Hnext & Hhist & Hnew & Hoth).
  exists s', [LockAcquire; Connect (next_oid s) false; LockRelease].
  split; [exact Hrun|]. rewrite Hself, Hnew. simpl.
  split; [apply dict_get_set_eq|]. split; [done|]. split; [done|].
  assert (forall o,
            calls_on o [LockAcquire; Connect (next_oid s) false; LockRelease]
            = if decide (o = next_oid s)
              then [Connect (next_oid s) false] else []) as Hdelta.
  { intros o. apply (calls_on_section_own o (next_oid s) [_]).
    by repeat constructor. }
  split.
  { unfold connects_on. rewrite Hhist, calls_on_app.
    rewrite calls_on_unallocated by done.
    by rewrite Hdelta, decide_True. }
  split; [done|]. split; [done|]. split.
  - intros old Hold%dict_get_Some_value.
    rewrite Forall_forall in Hlt. apply Hlt in Hold.
    assert (old <> next_oid s) as Hne by lia.
    split; [done|]. split; [by apply Hoth|].
    by rewrite Hdelta, decide_False.
  - intros u' Hne. by apply dict_get_set_ne.
Qed.

(** C7. [close_all_relay_connections] returns; [close] has been called on
    every registered relay, once each, in registration order; the manager's
    fields are unchanged, so every url is still registered, to the same
    relay object. *)
Theorem close_all_relay_connections_spec (s : State) :
  wf s ->
  exists s' delta,
    close_all_relay_connections s = (Ok tt, s')
    /\ self s' = self s
    /\ history s' = history s ++ delta
    /\ closed_in delta = dict_values (relays (self s))
    /\ (forall u o,
          dict_get u (relays (self s)) = Some o ->
          dict_get u (relays (self s')) = Some o
          /\ calls_on o delta = [Close o]
          /\ objects s' o = set_connected false (objects s o)).
Proof.
  intros Hwf.
  destruct (locked_loop _ _ _ s close_body_local) as
    (s' & d & Hrun & Hself & _ & Hhist & -> & Hcalls & Hoth & HR & _);
    [|done|].
  { intros r o. repeat constructor. }
  eexists s', _.
  rewrite close_all_relay_connections_as_values by apply Hwf.
  split; [exact Hrun|]. split; [done|]. split; [exact Hhist|]. split.
  - change (closed_in
              ([LockAcquire]
               ++ flat_map (fun o => [Close o])
                    (dict_values (relays (self s)))
               ++ [LockRelease])
            = dict_values (relays (self s))).
    rewrite !closed_in_app, closed_in_closes. simpl. apply app_nil_r.
  - intros u o Hget. rewrite Hself. split; [done|].
    apply dict_get_Some_value in Hget.
    rewrite Hcalls, decide_True by done. split; [done|]. by apply HR.
Qed.




(** ** What a method call leaves behind *)

Lemma lock_trace_app (held : bool) (h1 h2 : list Call) :
  lock_trace held (h1 ++ h2)
  = match lock_trace held h1 with
    | Some held' => lock_trace held' h2
    | None => None
    end.
Proof.
  revert held. induction h1 as [|c h1 IH]; intros held; [done|].
  destruct c, held; simpl; auto.
Qed.

Lemma lock_trace_held (body : list Call) :
  Forall (fun c => is_Some (target c)) body ->
  lock_trace true body = Some true.
Proof.
  induction 1 as [|c body [o Hc] _ IH]; [done|].
  destruct c; simpl in *; try done; discriminate.
Qed.

Lemma lock_trace_section (body : list Call) :
  Forall (fun c => is_Some (target c)) body ->
  lock_trace false (LockAcquire :: body ++ [LockRelease]) = Some false.
Proof.
  intros H. simpl. by rewrite lock_trace_app, lock_trace_held.
Qed.

Lemma flat_map_relay_calls emit (objs : nat -> Relay) (xs : list nat) :
  targets_own emit ->
  Forall (fun c => is_Some (target c))
    (flat_map (fun o => emit (objs o) o) xs).
Proof.
  intros Hown. induction xs as [|x xs IH]; simpl; [constructor|].
  apply Forall_app. split; [|exact IH].
  eapply Forall_impl; [apply Hown|]. intros c Hc. by rewrite Hc.
Qed.

Lemma touches_only_flat_map emit (objs : nat -> Relay) (xs : list nat) :
  targets_own emit ->
  touches_only xs (flat_map (fun o => emit (objs o) o) xs).
Proof.
  intros Hown. unfold touches_only. apply Forall_forall.
  intros c Hc o Ho. apply list_elem_of_In, in_flat_map in Hc
    as (x & Hx%list_elem_of_In & Hcx%list_elem_of_In).
  pose proof (Hown (objs x) x) as Hall. rewrite Forall_forall in Hall.
  specialize (Hall c Hcx). congruence.
Qed.

Lemma touches_only_weaken (live live' : list nat) (delta : list Call) :
  (forall o, o ∈ live -> o ∈ live') ->
  touches_only live delta -> touches_only live' delta.
Proof.
  intros Hsub H. unfold touches_only. eapply Forall_impl; [exact H|].
  intros c Hc o Ho. by apply Hsub, Hc.
Qed.

Lemma touches_only_none (live : list nat) (delta : list Call) :
  Forall (fun c => target c = None) delta -> touches_only live delta.
Proof.
  intros H. unfold touches_only. eapply Forall_impl; [exact H|].
  intros c Hc o Ho. congruence.
Qed.

Lemma touches_only_own (live : list nat) (o : nat) (body : list Call) :
  o ∈ live ->
  Forall (fun c => target c = Some o) body ->
  touches_only live (LockAcquire :: body ++ [LockRelease]).
Proof.
  intros Ho Hbody. unfold touches_only.
  apply Forall_cons. split; [done|]. apply Forall_app. split.
  - eapply Forall_impl; [exact Hbody|]. intros c Hc o' Ho'. congruence.
  - apply Forall_cons. split; [done|]. constructor.
Qed.

(** A relay that is not touched receives no call. *)
Lemma touches_only_calls_on (live : list nat) (delta : list Call) (o : nat) :
  touches_only live delta -> o ∉ live -> calls_on o delta = [].
Proof.
  intros Hall Ho. unfold calls_on. induction Hall as [|c delta Hc _ IH];
    [done|].
  rewrite filter_cons, IH. case_decide as Ht; [|done].
  exfalso. by apply Ho, Hc.
Qed.

Lemma same_identity_refl (r : Relay) : same_identity r r.
Proof. by repeat split. Qed.

Lemma same_identity_trans (r1 r2 r3 : Relay) :
  same_identity r1 r2 -> same_identity r2 r3 -> same_identity r1 r3.
Proof. unfold same_identity. intros H1 H2. intuition congruence. Qed.

Lemma same_config_refl (m : RelayManager) : same_config m m.
Proof. by repeat split. Qed.

(** The effect of a call that leaves the manager's fields alone and only
    touches registered relays. *)
Lemma effect_of_frame (s s' : State) (delta : list Call) :
  self s' = self s ->
  next_oid s' = next_oid s ->
  history s' = history s ++ delta ->
  lock_trace false delta = Some false ->
  touches_only (dict_values (relays (self s))) delta ->
  (forall o, o ∉ dict_values (relays (self s)) ->
             objects s' o = objects s o) ->
  (forall o, o ∈ dict_values (relays (self s)) ->
             same_identity (objects s o) (objects s' o)) ->
  step_effect s s' delta.
Proof.
  intros Hself Hnext Hhist Hlock Htouch Hoth Hid.
  split; [done|]. split; [done|]. split.
  { eapply touches_only_weaken; [|exact Htouch].
    intros o Ho. by apply list_elem_of_further. }
  split.
  { intros o [_ Ho]%not_elem_of_cons. by apply Hoth. }
  split.
  { intros o _. destruct (decide (o ∈ dict_values (relays (self s)))).
    - by apply Hid.
    - rewrite Hoth by done. apply same_identity_refl. }
  split; [rewrite Hself; apply same_config_refl|].
  apply registry_kept; [by rewrite Hself | done].
Qed.

(** The effect of a loop over the registered relays under the lock, followed
    by calls [rest] that need no lock. *)
Lemma loop_effect emit (R : Relay -> Relay -> Prop) (s s' : State)
    (rest : list Call) :
  targets_own emit ->
  (forall r r', R r r' -> same_identity r r') ->
  lock_trace false rest = Some false ->
  Forall (fun c => target c = None) rest ->
  self s' = self s ->
  next_oid s' = next_oid s ->
  history s'
  = history s
    ++ LockAcquire
       :: flat_map (fun o => emit (objects s o) o)
            (dict_values (relays (self s)))
       ++ LockRelease :: rest ->
  (forall o, o ∉ dict_values (relays (self s)) ->
             objects s' o = objects s o) ->
  (forall o, o ∈ dict_values (relays (self s)) ->
             R (objects s o) (objects s' o)) ->
  step_effect s s'
    (LockAcquire
     :: flat_map (fun o => emit (objects s o) o)
          (dict_values (relays (self s)))
     ++ LockRelease :: rest).
Proof.
  intros Hown HR Hrest Hnone Hself Hnext Hhist Hoth Hin.
  apply effect_of_frame; try done.
  - simpl. rewrite lock_trace_app, lock_trace_held; [done|].
    by apply flat_map_relay_calls.
  - unfold touches_only. apply Forall_cons. split; [done|].
    apply Forall_app. split.
    + by apply (touches_only_flat_map emit).
    + apply Forall_cons. split; [done|]. by apply touches_only_none.
  - intros o Ho. by apply HR, Hin.
Qed.


Lemma add_relay_effect (u : string) (p : RelayPolicy) (ssl : option json)
    (proxy : option RelayProxyConnectionConfig) (s : State) :
  step_effect s (add_relay u p ssl proxy s).2
    [LockAcquire; Connect (next_oid s) false; LockRelease].
Proof.
  destruct (add_relay_run u p ssl proxy s)
    as (s' & up & -> & Hself & Hnext & Hhist & Hnew & Hoth).
  simpl. split; [done|]. split; [done|]. split.
  { apply (touches_only_own _ (next_oid s) [_]).
    - apply list_elem_of_here.
    - by apply Forall_singleton. }
  split.
  { intros o [Hne _]%not_elem_of_cons. by apply Hoth. }
  split.
  { intros o Hne. rewrite Hoth by done. apply same_identity_refl. }
  split; [by rewrite Hself|].
  apply (registry_added s s' u); rewrite ?Hself, ?Hnew; done.
Qed.

Lemma remove_relay_effect (u : string) (s : State) :
  exists delta, step_effect s (remove_relay u s).2 delta.
Proof.
  destruct (dict_get u (relays (self s))) as [o|] eqn:Hget.
  - rewrite (remove_relay_present u o) by done.
    exists [LockAcquire; Close o; LockRelease]. unfold step_effect.
    cbn [snd history objects self next_oid relays with_history
           with_objects with_self set_relays].
    apply dict_get_Some_value in Hget.
    split; [done|]. split; [done|]. split.
    { apply (touches_only_own _ o [_]).
      - by apply list_elem_of_further.
      - by apply Forall_singleton. }
    split.
    { intros o' [_ Ho']%not_elem_of_cons.
      rewrite fn_lookup_insert_ne; [done|]. by intros ->. }
    split.
    { intros o' _. destruct (decide (o = o')) as [<-|Hne].
      - rewrite fn_lookup_insert. by repeat split.
      - rewrite fn_lookup_insert_ne by done. apply same_identity_refl. }
    split; [done|]. by apply (registry_removed _ _ u).
  - rewrite remove_relay_absent by done.
    exists [LockAcquire; LockRelease].
    apply effect_of_frame;
      first [ done
            | apply touches_only_none; by repeat constructor
            | intros o _; apply same_identity_refl ].
Qed.

(** A call that, under the lock, calls [body] on the one registered relay
    [o] and leaves it [r']. *)
Lemma single_relay_effect (s : State) (u : string) (o : nat)
    (body : list Call) (r' : Relay) :
  dict_get u (relays (self s)) = Some o ->
  Forall (fun c => target c = Some o) body ->
  same_identity (objects s o) r' ->
  step_effect s
    (with_history (history s ++ LockAcquire :: body ++ [LockRelease])
       (with_objects (<[o := r']> (objects s)) s))
    (LockAcquire :: body ++ [LockRelease]).
Proof.
  intros Hget%dict_get_Some_value Hbody Hid.
  apply effect_of_frame; try done.
  - apply lock_trace_section. eapply Forall_impl; [exact Hbody|].
    intros c Hc. by rewrite Hc.
  - by apply (touches_only_own _ o).
  - intros o' Ho'. cbn [snd history objects self next_oid relays with_history
         with_objects with_self set_relays].
    rewrite fn_lookup_insert_ne; [done|]. by intros ->.
  - intros o' _. cbn [snd history objects self next_oid relays with_history
         with_objects with_self set_relays].
    destruct (decide (o = o')) as [<-|Hne].
    + by rewrite fn_lookup_insert.
    + rewrite fn_lookup_insert_ne by done. apply same_identity_refl.
Qed.

(** A call that only takes and releases the lock. *)
Lemma refused_effect (s : State) :
  step_effect s (with_history (history s ++ [LockAcquire; LockRelease]) s)
    [LockAcquire; LockRelease].
Proof.
  apply effect_of_frame;
    first [ done
          | apply touches_only_none; by repeat constructor
          | intros o _; apply same_identity_refl ].
Qed.

(** A call that returns or raises before it does anything. *)
Lemma no_effect (s : State) : step_effect s s [].
Proof.
  apply effect_of_frame;
    first [ done
          | by rewrite app_nil_r
          | constructor
          | intros o _; apply same_identity_refl ].
Qed.

Lemma add_subscription_on_relay_effect (u id : string) (f : Filters)
    (s : State) :
  exists delta, step_effect s (add_subscription_on_relay u id f s).2 delta.
Proof.
  destruct (dict_get u (relays (self s))) as [o|] eqn:Hget.
  - destruct (should_read (policy (objects s o))) eqn:Hr.
    + rewrite (add_subscription_on_relay_readable u id f o) by done.
      eexists. apply (single_relay_effect s u o [_; _]); [done| |].
      * by repeat constructor.
      * by repeat split.
    + rewrite (add_subscription_on_relay_unreadable u id f o) by done.
      eexists. apply refused_effect.
  - rewrite add_subscription_on_relay_unknown by done.
    eexists. apply refused_effect.
Qed.

Lemma close_subscription_on_relay_effect (u id : string) (s : State) :
  exists delta, step_effect s (close_subscription_on_relay u id s).2 delta.
Proof.
  destruct (dict_get u (relays (self s))) as [o|] eqn:Hget.
  - rewrite (close_subscription_on_relay_known u id o) by done.
    eexists. apply (single_relay_effect s u o [_; _]); [done| |].
    + by repeat constructor.
    + by repeat split.
  - rewrite close_subscription_on_relay_unknown by done.
    eexists. apply refused_effect.
Qed.

Lemma same_identity_subscribed (id : string) (f : Filters) (r r' : Relay) :
  r' = (if should_read (policy r)
        then set_subscriptions
               (dict_set id {| sub_id := id; sub_filters := f |}
                  (subscriptions r)) r
        else r) ->
  same_identity r r'.
Proof. intros ->. by destruct (should_read (policy r)). Qed.

Lemma same_identity_polled (r r' : Relay) :
  (if connected r then r' = r else exists up, r' = set_connected up r) ->
  same_identity r r'.
Proof. destruct (connected r); [by intros -> | by intros [up ->]]. Qed.

Lemma add_subscription_on_all_relays_effect (id : string) (f : Filters)
    (s : State) :
  wf s ->
  exists delta, step_effect s (add_subscription_on_all_relays id f s).2 delta.
Proof.
  intros Hwf.
  assert (targets_own
            (fun r o =>
               if should_read (policy r)
               then [AddSubscription o id f;
                     Publish o (Request_to_message id f)]
               else [])) as Hown.
  { intros r o. destruct (should_read (policy r)); repeat constructor. }
  destruct (locked_loop _ _ _ s (subscribe_body_local id f) Hown Hwf) as
    (s' & d & Hrun & Hself & Hnext & Hhist & -> & _ & Hoth & HR & _).
  unfold add_subscription_on_all_relays. rewrite Hrun. eexists.
  refine (loop_effect _ _ s s' [] Hown _ eq_refl _ Hself Hnext Hhist Hoth HR);
    [apply same_identity_subscribed | constructor].
Qed.

Lemma close_subscription_on_all_relays_effect (id : string) (s : State) :
  wf s ->
  exists delta, step_effect s (close_subscription_on_all_relays id s).2 delta.
Proof.
  intros Hwf.
  assert (targets_own
            (fun (_ : Relay) o =>
               [CloseSubscription o id; Publish o (close_message id)]))
    as Hown.
  { intros r o. repeat constructor. }
  destruct (locked_loop _ _ _ s (unsubscribe_body_local id) Hown Hwf) as
    (s' & d & Hrun & Hself & Hnext & Hhist & -> & _ & Hoth & HR & _).
  unfold close_subscription_on_all_relays. rewrite Hrun. eexists.
  refine (loop_effect _
            (fun r r' => r' = set_subscriptions
                                 (dict_remove id (subscriptions r)) r)
            s s' [] Hown _ eq_refl _ Hself Hnext Hhist Hoth HR);
    [by intros r r' -> | constructor].
Qed.

Lemma close_all_relay_connections_effect (s : State) :
  wf s ->
  exists delta, step_effect s (close_all_relay_connections s).2 delta.
Proof.
  intros Hwf.
  assert (targets_own (fun (_ : Relay) o => [Close o])) as Hown.
  { intros r o. repeat constructor. }
  destruct (locked_loop _ _ _ s close_body_local Hown Hwf) as
    (s' & d & Hrun & Hself & Hnext & Hhist & -> & _ & Hoth & HR & _).
  rewrite close_all_relay_connections_as_values by apply Hwf.
  rewrite Hrun. eexists.
  refine (loop_effect _
            (fun r r' => r' = set_connected false r)
            s s' [] Hown _ eq_refl _ Hself Hnext Hhist Hoth HR);
    [by intros r r' -> | constructor].
Qed.

Lemma publish_event_effect (event : Event) (s : State) :
  wf s ->
  exists delta, step_effect s (publish_event event s).2 delta.
Proof.
  intros Hwf. destruct (signature event) as [sig|] eqn:Hsig.
  - destruct (verify event) eqn:Hv.
    + assert (targets_own
                (fun r o =>
                   if should_write (policy r)
                   then [Publish o (Event_to_message event)] else []))
        as Hown.
      { intros r o. destruct (should_write (policy r)); repeat constructor. }
      destruct (locked_loop _ _ _ s
                  (publish_body_local (Event_to_message event)) Hown Hwf) as
        (s' & d & Hrun & Hself & Hnext & Hhist & -> & _ & Hoth & HR & _).
      rewrite (publish_event_verified event sig) by done.
      rewrite Hrun. eexists.
      refine (loop_effect _
            (fun r r' => r' = r)
            s s' [] Hown _ eq_refl _
                Hself Hnext Hhist Hoth HR);
        [by intros r r' -> | constructor].
    + rewrite (publish_event_unverified event sig) by done.
      eexists. apply no_effect.
  - rewrite publish_event_unsigned by done. eexists. apply no_effect.
Qed.

Lemma monitor_poll_effect (s : State) :
  wf s ->
  exists delta, step_effect s (monitor_poll s).2 delta.
Proof.
  intros Hwf.
  destruct (monitor_poll_run s Hwf) as
    (s' & d & Hrun & Hself & Hnext & Hhist & -> & _ & Hoth & HR & _).
  rewrite Hrun. eexists.
  refine (loop_effect
            (fun r o => if connected r then [] else [Connect o true])
            (fun r r' => if connected r then r' = r
                         else exists up, r' = set_connected up r)
            s s' (slept _) _ _ _ _ Hself Hnext Hhist Hoth HR).
  - intros r o. destruct (connected r); repeat constructor.
  - apply same_identity_polled.
  - unfold slept. by destruct (sleep_error _).
  - apply slept_no_relay.
Qed.

Lemma step_has_effect (s s' : State) :
  wf s -> step s s' -> exists delta, step_effect s s' delta.
Proof.
  intros Hwf Hstep. destruct Hstep.
  - eexists. apply add_relay_effect.
  - apply remove_relay_effect.
  - apply add_subscription_on_relay_effect.
  - by apply add_subscription_on_all_relays_effect.
  - apply close_subscription_on_relay_effect.
  - by apply close_subscription_on_all_relays_effect.
  - by apply close_all_relay_connections_effect.
  - by apply publish_event_effect.
  - by apply monitor_poll_effect.
Qed.


(** ** Further properties of the methods *)

(** X1. [close_subscription_on_all_relays] returns without error; on every
    registered relay, whatever its policy, the calls made are the removal of
    the subscription and then one [publish] of the CLOSE envelope; the
    record of the subscription is gone from the relay and its other records
    are kept.  Nothing is called on a relay that is not registered, and the
    manager's fields are unchanged. *)
Theorem close_subscription_on_all_relays_spec (id : string) (s : State) :
  wf s ->
  exists s' delta,
    close_subscription_on_all_relays id s = (Ok tt, s')
    /\ self s' = self s
    /\ history s' = history s ++ delta
    /\ (forall u o,
          dict_get u (relays (self s)) = Some o ->
          calls_on o delta
          = [CloseSubscription o id;
             Publish o (json_dumps (JArr [JStr "CLOSE"; JStr id]))]
          /\ dict_get id (subscriptions (objects s' o)) = None
          /\ (forall id', id' <> id ->
                dict_get id' (subscriptions (objects s' o))
                = dict_get id' (subscriptions (objects s o))))
    /\ (forall o, o ∉ dict_values (relays (self s)) ->
                  calls_on o delta = [] /\ objects s' o = objects s o).
Proof.
  intros Hwf.
  destruct (locked_loop _ _ _ s (unsubscribe_body_local id)) as
    (s' & d & Hrun & Hself & _ & Hhist & _ & Hcalls & Hoth & HR & _);
    [|done|].
  { intros r o. repeat constructor. }
  exists s', d. split; [exact Hrun|]. split; [done|]. split; [done|]. split.
  - intros u o Hget%dict_get_Some_value.
    rewrite Hcalls, decide_True by done. rewrite (HR o) by done.
    split; [done|]. split; [apply dict_get_remove_eq|].
    intros id' Hne. by apply dict_get_remove_ne.
  - intros o Ho. rewrite Hcalls, decide_False by done. split; [done|].
    by apply Hoth.
Qed.

(** X2. Lock discipline.  In every state a manager can be in, the history
    of its calls respects the lock: it is never acquired while held nor
    released while free, every call on a relay is made with the lock held,
    the monitor sleeps with the lock free, and the lock is free when a
    method has returned or raised. *)
Theorem reachable_lock_discipline (s : State) :
  reachable s -> lock_trace false (history s) = Some false.
Proof.
  induction 1 as [|s s' Hreach IH Hstep]; [done|].
  destruct (step_has_effect s s' (reachable_wf s Hreach) Hstep)
    as (delta & Hhist & Hlock & _).
  by rewrite Hhist, lock_trace_app, IH.
Qed.


Lemma dict_get_inj {V} (u u' : string) (v : V) (d : dict V) :
  NoDup (dict_values d) ->
  dict_get u d = Some v -> dict_get u' d = Some v -> u = u'.
Proof.
  unfold dict_values. induction d as [|[k w] d IH]; [done|].
  rewrite fmap_cons. intros [Hw Hnd]%NoDup_cons. cbn [dict_get snd] in *.
  destruct (decide (u = k)) as [->|Hu], (decide (u' = k)) as [->|Hu'];
    try done.
  - intros [= ->] Hget%dict_get_Some_value. done.
  - intros Hget%dict_get_Some_value [= ->]. done.
  - by apply IH.
Qed.

Lemma built_for_transfer (s s' : State) (u : string) (o : nat) :
  built_for s u o ->
  same_identity (objects s o) (objects s' o) ->
  same_config (self s) (self s') ->
  built_for s' u o.
Proof.
  unfold built_for, same_identity, same_config.
  intros (?&?&?&?) (?&?&?&?&?&?&?) (?&?&?&?&?). repeat split; congruence.
Qed.

Lemma built_for_step (s s' : State) (delta : list Call) :
  wf s ->
  (forall u o, dict_get u (relays (self s)) = Some o -> built_for s u o) ->
  step_effect s s' delta ->
  forall u o, dict_get u (relays (self s')) = Some o -> built_for s' u o.
Proof.
  intros (_ & _ & Hlt & _) Hinv (_ & _ & _ & _ & Hid & Hcfg & Hreg) u o Hget.
  rewrite Forall_forall in Hlt.
  assert (forall o, dict_get u (relays (self s)) = Some o -> built_for s' u o)
    as Hold.
  { intros o' Hget'. apply (built_for_transfer s); [by apply Hinv| |done].
    apply Hid. apply dict_get_Some_value, Hlt in Hget'. lia. }
  destruct Hreg as [Hrel _|u0 Hrel _ Hurl Hpool Hopen Hclose|u0 Hrel _];
    rewrite Hrel in Hget.
  - by apply Hold.
  - destruct (decide (u0 = u)) as [->|Hne].
    + rewrite dict_get_set_eq in Hget. injection Hget as <-.
      destruct Hcfg as (_ & Hop & Hcl & _ & Hmp).
      unfold built_for. by rewrite Hurl, Hpool, Hopen, Hclose, Hop, Hcl, Hmp.
    + rewrite dict_get_set_ne in Hget by done. by apply Hold.
  - destruct (decide (u0 = u)) as [->|Hne].
    + by rewrite dict_get_remove_eq in Hget.
    + rewrite dict_get_remove_ne in Hget by done. by apply Hold.
Qed.

Lemma reachable_built_for (s : State) :
  reachable s ->
  forall u o, dict_get u (relays (self s)) = Some o -> built_for s u o.
Proof.
  induction 1 as [|s s' Hreach IH Hstep]; [done|].
  destruct (step_has_effect s s' (reachable_wf s Hreach) Hstep)
    as (delta & Heff).
  apply (built_for_step s s' delta); [by apply reachable_wf|done|done].
Qed.

(** X3. The registry invariant.  In every state a manager can be in, a url
    is registered to a relay object that has been built, for that very url,
    with the manager's message pool and callbacks, and no other url is
    registered to the same object. *)
Theorem reachable_registry (s : State) (u : string) (o : nat) :
  reachable s ->
  dict_get u (relays (self s)) = Some o ->
  o < next_oid s
  /\ url (objects s o) = u
  /\ relay_message_pool (objects s o) = message_pool (self s)
  /\ on_open_callback (objects s o) = on_relay_open (self s)
  /\ on_close_callback (objects s o) = on_relay_close (self s)
  /\ (forall u', dict_get u' (relays (self s)) = Some o -> u' = u).
Proof.
  intros Hreach Hget.
  pose proof (reachable_wf s Hreach) as (_ & Hv & Hlt & _).
  destruct (reachable_built_for s Hreach u o Hget) as (H1 & H2 & H3 & H4).
  split.
  { rewrite Forall_forall in Hlt. by apply Hlt, (dict_get_Some_value u). }
  repeat (split; [done|]).
  intros u' Hget'. by apply (dict_get_inj u' u o (relays (self s))).
Qed.


Lemma step_effect_values (s s' : State) (delta : list Call) (o : nat) :
  step_effect s s' delta ->
  o ∈ dict_values (relays (self s')) ->
  o = next_oid s \/ o ∈ dict_values (relays (self s)).
Proof.
  intros (_ & _ & _ & _ & _ & _ & Hreg).
  destruct Hreg as [Hrel _|u0 Hrel _ _ _ _ _|u0 Hrel _]; rewrite Hrel.
  - by right.
  - apply dict_set_values_elem.
  - intros H%dict_remove_values_elem. by right.
Qed.

Lemma step_effect_next_oid (s s' : State) (delta : list Call) :
  step_effect s s' delta -> next_oid s <= next_oid s'.
Proof.
  intros (_ & _ & _ & _ & _ & _ & Hreg).
  destruct Hreg as [_ Hn|u0 _ Hn _ _ _ _|u0 _ Hn]; lia.
Qed.

(** A relay object that is registered nowhere is out of the reach of every
    method: it stays so, receives no call and is not changed. *)
Lemma orphan_step (s s' : State) (o : nat) :
  wf s -> orphan s o -> step s s' ->
  orphan s' o
  /\ exists delta,
       history s' = history s ++ delta
       /\ calls_on o delta = []
       /\ objects s' o = objects s o.
Proof.
  intros Hwf [Hlt Hnot] Hstep.
  destruct (step_has_effect s s' Hwf Hstep) as (delta & Heff).
  pose proof (step_effect_next_oid _ _ _ Heff) as Hmono.
  pose proof (step_effect_values _ _ _ o Heff) as Hvals.
  destruct Heff as (Hhist & _ & Htouch & Hoth & _).
  assert (o ∉ next_oid s :: dict_values (relays (self s))) as Hout.
  { rewrite not_elem_of_cons. split; [lia | done]. }
  split.
  - split; [lia|]. intros Hin. apply Hvals in Hin as [->|Hin]; [lia|done].
  - exists delta. split; [done|]. split; [|by apply Hoth].
    by apply (touches_only_calls_on _ _ _ Htouch).
Qed.

Lemma orphan_steps (s s2 : State) (o : nat) :
  rtc step s s2 -> wf s -> orphan s o ->
  exists delta,
    history s2 = history s ++ delta
    /\ calls_on o delta = []
    /\ objects s2 o = objects s o
    /\ orphan s2 o.
Proof.
  induction 1 as [s|s s1 s2 Hstep _ IH]; intros Hwf Horph.
  - exists []. by rewrite app_nil_r.
  - destruct (orphan_step s s1 o Hwf Horph Hstep)
      as (Horph1 & d1 & Hh1 & Hc1 & Ho1).
    destruct (IH (step_wf s s1 Hwf Hstep) Horph1)
      as (d2 & Hh2 & Hc2 & Ho2 & Horph2).
    exists (d1 ++ d2). rewrite Hh2, Hh1, <- app_assoc, calls_on_app, Hc1, Hc2.
    split; [done|]. split; [done|]. split; [congruence | done].
Qed.

Lemma dict_set_displaces {V} (u : string) (old new : V) (d : dict V) :
  NoDup (dict_values d) ->
  dict_get u d = Some old ->
  old <> new ->
  old ∉ dict_values (dict_set u new d).
Proof.
  unfold dict_values. intros Hnd Hget Hne.
  induction d as [|[k w] d IH]; [done|].
  rewrite fmap_cons in Hnd. apply NoDup_cons in Hnd as [Hw Hnd].
  cbn [dict_get dict_set snd] in *.
  destruct (decide (u = k)) as [->|Hu]; rewrite fmap_cons; cbn [snd].
  - injection Hget as ->. rewrite not_elem_of_cons. by split.
  - rewrite not_elem_of_cons. split; [|by apply IH].
    intros ->. by apply Hw, (dict_get_Some_value u).
Qed.

(** X4. A relay that is overwritten is abandoned.  When [add_relay] is
    called on a url that is already registered, the relay object that was
    registered is left as it was, and whatever the manager is asked to do
    afterwards, nothing is ever called on it again (in particular it is
    never closed), it is never changed and it is registered under no
    url. *)
Theorem overwritten_relay_abandoned (u : string) (p : RelayPolicy)
    (ssl : option json) (proxy : option RelayProxyConnectionConfig)
    (s s2 : State) (old : nat) :
  wf s ->
  dict_get u (relays (self s)) = Some old ->
  rtc step (add_relay u p ssl proxy s).2 s2 ->
  exists delta,
    history s2 = history s ++ delta
    /\ calls_on old delta = []
    /\ objects s2 old = objects s old
    /\ old ∉ dict_values (relays (self s2)).
Proof.
  intros Hwf Hget Hrtc. pose proof Hwf as (_ & Hv & Hlt & _).
  rewrite Forall_forall in Hlt.
  pose proof (Hlt old (dict_get_Some_value u old _ Hget)) as Hold.
  pose proof (add_relay_wf u p ssl proxy s Hwf) as Hwf1.
  destruct (add_relay_run u p ssl proxy s)
    as (s1 & up & Hrun & Hself & Hnext & Hhist & _ & Hoth).
  rewrite Hrun in Hrtc, Hwf1. simpl in Hrtc, Hwf1.
  assert (orphan s1 old) as Horph.
  { split; [lia|]. rewrite Hself. simpl.
    apply dict_set_displaces; [done|done|lia]. }
  destruct (orphan_steps s1 s2 old Hrtc Hwf1 Horph)
    as (d & Hh & Hc & Ho & _ & Hnot).
  exists ([LockAcquire; Connect (next_oid s) false; LockRelease] ++ d).
  rewrite Hh, Hhist, <- app_assoc, calls_on_app, Hc.
  split; [done|]. split.
  - rewrite app_nil_r.
    etrans; [apply (calls_on_section_own old (next_oid s) [_]);
             by repeat constructor|].
    rewrite decide_False; [done | lia].
  - split; [|done]. rewrite Ho. apply Hoth. lia.
Qed.

(** X5. What no method changes.  Whatever the manager is asked to do, its
    monitor interval, callbacks, stop flag and message pool stay as they
    were, and so do the url, message pool, policy, TLS and proxy options
    and callbacks of every relay object built so far: only the registry,
    the subscriptions and the connection status change. *)
Theorem configuration_is_kept (s s' : State) :
  wf s ->
  rtc step s s' ->
  same_config (self s) (self s')
  /\ forall o, o < next_oid s -> same_identity (objects s o) (objects s' o).
Proof.
  intros Hwf Hrtc. revert Hwf.
  induction Hrtc as [s|s s1 s2 Hstep _ IH]; intros Hwf.
  - split; [apply same_config_refl|]. intros o _. apply same_identity_refl.
  - destruct (step_has_effect s s1 Hwf Hstep) as (delta & Heff).
    pose proof (step_effect_next_oid _ _ _ Heff) as Hmono.
    destruct Heff as (_ & _ & _ & _ & Hid & Hcfg & _).
    destruct (IH (step_wf s s1 Hwf Hstep)) as [Hcfg2 Hid2].
    split.
    + unfold same_config in *.
      destruct Hcfg as (?&?&?&?&?), Hcfg2 as (?&?&?&?&?).
      repeat split; congruence.
    + intros o Ho. apply (same_identity_trans _ (objects s1 o)).
      * apply Hid. lia.
      * apply Hid2. lia.
Qed.








(** X7. Removing is idempotent.  Once [remove_relay] has been called on a
    url, the url is not registered: calling [remove_relay] on it again
    returns and changes nothing, and subscribing or closing a subscription
    on it raises. *)
Theorem remove_relay_idempotent (u id : string) (f : Filters) (s : State) :
  dict_get u (relays (self (remove_relay u s).2)) = None
  /\ remove_relay u (remove_relay u s).2
     = (Ok tt,
        with_history
          (history (remove_relay u s).2 ++ [LockAcquire; LockRelease])
          (remove_relay u s).2)
  /\ (exists s2,
        add_subscription_on_relay u id f (remove_relay u s).2
        = (Raise (RelayException
                    ("Invalid relay url: no connection to " +:+ u)), s2))
  /\ (exists s2,
        close_subscription_on_relay u id (remove_relay u s).2
        = (Raise (RelayException
                    ("Invalid relay url: no connection to " +:+ u)), s2)).
Proof.
  assert (dict_get u (relays (self (remove_relay u s).2)) = None) as Hgone.
  { destruct (dict_get u (relays (self s))) as [o|] eqn:Hget.
    - rewrite (remove_relay_present u o) by done. apply dict_get_remove_eq.
    - by rewrite remove_relay_absent. }
  split; [done|]. split; [by apply remove_relay_absent|]. split.
  - eexists. by apply add_subscription_on_relay_unknown.
  - eexists. by apply close_subscription_on_relay_unknown.
Qed.

(** X8. The policy given to [add_relay] governs the relay.  Right after
    [add_relay], subscribing on the url returns and sends the REQ envelope
    to the new relay when the policy has [should_read], and raises when it
    has not; publishing a verified event passes it to the new relay exactly
    once when the policy has [should_write], and not at all when it has
    not. *)
Theorem add_relay_policy_governs (u : string) (p : RelayPolicy)
    (ssl : option json) (proxy : option RelayProxyConnectionConfig)
    (s : State) :
  (forall id f,
     if should_read p then
       exists s2,
         add_subscription_on_relay u id f (add_relay u p ssl proxy s).2
         = (Ok tt, s2)
         /\ history s2
            = history (add_relay u p ssl proxy s).2
              ++ [LockAcquire; AddSubscription (next_oid s) id f;
                  Publish (next_oid s)
                    (json_dumps (JArr (JStr "REQ" :: JStr id :: f)));
                  LockRelease]
     else
       exists s2,
         add_subscription_on_relay u id f (add_relay u p ssl proxy s).2
         = (Raise (RelayException
                     ("Could not send request: " +:+ u
                      +:+ " is not configured to read from")), s2))
  /\ (forall event sig,
        wf s ->
        signature event = Some sig ->
        verify event = true ->
        exists s2 delta,
          publish_event event (add_relay u p ssl proxy s).2 = (Ok tt, s2)
          /\ history s2 = history (add_relay u p ssl proxy s).2 ++ delta
          /\ published_to (next_oid s) delta
             = if should_write p
               then [json_dumps (JArr [JStr "EVENT"; event_object event])]
               else []).
Proof.
  pose proof (add_relay_wf u p ssl proxy s) as Hwf1.
  destruct (add_relay_run u p ssl proxy s)
    as (s1 & up & Hrun & Hself & Hnext & Hhist & Hnew & Hoth).
  rewrite Hrun in *. simpl in Hwf1. simpl.
  assert (dict_get u (relays (self s1)) = Some (next_oid s)) as Hget.
  { rewrite Hself. apply dict_get_set_eq. }
  assert (policy (objects s1 (next_oid s)) = p) as Hpol by by rewrite Hnew.
  split.
  - intros id f. destruct (should_read p) eqn:Hr.
    + eexists. split;
        [apply (add_subscription_on_relay_readable u id f (next_oid s));
         [done | by rewrite Hpol]|].
      done.
    + eexists.
      apply (add_subscription_on_relay_unreadable u id f (next_oid s));
        [done | by rewrite Hpol].
  - intros event sig Hwf Hsig Hv.
    destruct (locked_loop _ _ _ s1
                (publish_body_local (Event_to_message event))) as
      (s2 & d & Hrun2 & _ & _ & Hhist2 & _ & Hcalls & _);
      [|by apply Hwf1|].
    { intros r o. destruct (should_write (policy r)); repeat constructor. }
    exists s2, d. rewrite (publish_event_verified event sig) by done.
    split; [done|]. split; [done|].
    unfold published_to.
    rewrite Hcalls, decide_True by (by apply (dict_get_Some_value u)).
    rewrite Hpol. by destruct (should_write p).
Qed.

(** X9. Subscribing and then closing the subscription, on a registered
    relay that may be read from: both calls return; the relay has received,
    in this order, the record, the REQ envelope, the removal and the CLOSE
    envelope, each pair under its own acquisition of the lock; afterwards
    the subscription is not recorded on the relay, the relay's other
    subscriptions are as before the two calls, and nothing else has
    changed. *)
Theorem subscribe_then_unsubscribe (u id : string) (f : Filters) (o : nat)
    (s : State) :
  dict_get u (relays (self s)) = Some o ->
  should_read (policy (objects s o)) = true ->
  exists s1 s2,
    add_subscription_on_relay u id f s = (Ok tt, s1)
    /\ close_subscription_on_relay u id s1 = (Ok tt, s2)
    /\ self s2 = self s
    /\ history s2
       = history s
         ++ [LockAcquire; AddSubscription o id f;
             Publish o (json_dumps (JArr (JStr "REQ" :: JStr id :: f)));
             LockRelease;
             LockAcquire; CloseSubscription o id;
             Publish o (json_dumps (JArr [JStr "CLOSE"; JStr id]));
             LockRelease]
    /\ dict_get id (subscriptions (objects s2 o)) = None
    /\ (forall id', id' <> id ->
          dict_get id' (subscriptions (objects s2 o))
          = dict_get id' (subscriptions (objects s o)))
    /\ connected (objects s2 o) = connected (objects s o)
    /\ (forall o', o' <> o -> objects s2 o' = objects s o').
Proof.
  intros Hget Hr. do 2 eexists.
  split; [by apply (add_subscription_on_relay_readable u id f o)|].
  split; [by apply (close_subscription_on_relay_known u id o)|].
  cbn [self history objects with_history with_objects].
  split; [done|]. split; [by rewrite <- app_assoc|].
  rewrite !fn_lookup_insert. cbn [subscriptions set_subscriptions connected].
  split; [apply dict_get_remove_eq|]. split.
  - intros id' Hne. rewrite dict_get_remove_ne, dict_get_set_ne by done. done.
  - split; [done|]. intros o' Hne. by rewrite !fn_lookup_insert_ne.
Qed.




Lemma publishes_app (h1 h2 : list Call) :
  publishes (h1 ++ h2) = publishes h1 ++ publishes h2.
Proof. apply omap_app. Qed.

Lemma publishes_section (body : list Call) :
  publishes (LockAcquire :: body ++ [LockRelease]) = publishes body.
Proof.
  change (LockAcquire :: body ++ [LockRelease])
    with ([LockAcquire] ++ body ++ [LockRelease]).
  rewrite !publishes_app. simpl. apply app_nil_r.
Qed.

Lemma publishes_fan_out (m : string) (w : nat -> bool) (xs : list nat) :
  publishes (flat_map (fun o => if w o then [Publish o m] else []) xs)
  = (fun o => (o, m)) <$> filter (fun o => w o = true) xs.
Proof.
  induction xs as [|x xs IH]; [done|].
  change (flat_map ?f (x :: xs)) with (f x ++ flat_map f xs).
  rewrite publishes_app, IH, filter_cons.
  destruct (w x); by rewrite ?decide_True, ?decide_False by done.
Qed.

(** The calls of [publish_event] on a verified event, in full. *)
Lemma publish_event_history (event : Event) (sig : string) (s : State) :
  wf s ->
  signature event = Some sig ->
  verify event = true ->
  exists s',
    publish_event event s = (Ok tt, s')
    /\ history s'
       = history s
         ++ LockAcquire
            :: flat_map
                 (fun o => if should_write (policy (objects s o))
                           then [Publish o (Event_to_message event)]
                           else [])
                 (dict_values (relays (self s)))
            ++ [LockRelease].
Proof.
  intros Hwf Hsig Hv.
  destruct (locked_loop _ _ _ s
              (publish_body_local (Event_to_message event))) as
    (s' & d & Hrun & _ & _ & Hhist & -> & _); [|done|].
  { intros r o. destruct (should_write (policy r)); repeat constructor. }
  exists s'. by rewrite (publish_event_verified event sig).
Qed.

(** X11. [publish_event] serves the relays in registration order: the
    [publish] calls of a verified event are one per registered relay whose
    policy has [should_write], with the EVENT envelope, in the order of
    [self.relays]. *)
Theorem publish_event_order (event : Event) (sig : string) (s : State) :
  wf s ->
  signature event = Some sig ->
  verify event = true ->
  exists s' delta,
    publish_event event s = (Ok tt, s')
    /\ history s' = history s ++ delta
    /\ publishes delta
       = (fun o => (o, json_dumps (JArr [JStr "EVENT"; event_object event])))
         <$> filter (fun o => should_write (policy (objects s o)) = true)
               (dict_values (relays (self s))).
Proof.
  intros Hwf Hsig Hv.
  destruct (publish_event_history event sig s Hwf Hsig Hv)
    as (s' & Hrun & Hhist).
  eexists s', _. split; [exact Hrun|]. split; [exact Hhist|].
  rewrite publishes_section.
  apply (publishes_fan_out (Event_to_message event)
           (fun o => should_write (policy (objects s o)))).
Qed.

Lemma dict_set_values_new {V} (k : string) (v : V) (d : dict V) :
  dict_get k d = None ->
  dict_values (dict_set k v d) = dict_values d ++ [v].
Proof.
  unfold dict_values. induction d as [|[k' v'] d IH]; [done|].
  cbn [dict_get dict_set]. destruct (decide (k = k')); [done|].
  intros H. rewrite !fmap_cons, IH by done. done.
Qed.

(** X12. A relay registered under a new url is served last and disturbs
    nothing: a verified event published after [add_relay] on a url that
    was not registered goes to the same relays, in the same order, as it
    would have gone before, and then to the new relay when its policy has
    [should_write]. *)
Theorem add_relay_served_last (u : string) (p : RelayPolicy)
    (ssl : option json) (proxy : option RelayProxyConnectionConfig)
    (event : Event) (sig : string) (s : State) :
  wf s ->
  dict_get u (relays (self s)) = None ->
  signature event = Some sig ->
  verify event = true ->
  exists s1 delta1 s2 delta2,
    publish_event event s = (Ok tt, s1)
    /\ history s1 = history s ++ delta1
    /\ publish_event event (add_relay u p ssl proxy s).2 = (Ok tt, s2)
    /\ history s2 = history (add_relay u p ssl proxy s).2 ++ delta2
    /\ publishes delta2
       = publishes delta1
         ++ (if should_write p
             then [(next_oid s,
                    json_dumps (JArr [JStr "EVENT"; event_object event]))]
             else []).
Proof.
  intros Hwf Hnew Hsig Hv.
  pose proof (add_relay_wf u p ssl proxy s Hwf) as Hwf'.
  destruct (add_relay_run u p ssl proxy s)
    as (s' & up & Hrun' & Hself & Hnext & _ & Hobj & Hoth).
  rewrite Hrun' in *. cbn [snd] in *.
  destruct (publish_event_history event sig s Hwf Hsig Hv)
    as (s1 & Hrun1 & Hh1).
  destruct (publish_event_history event sig s' Hwf' Hsig Hv)
    as (s2 & Hrun2 & Hh2).
  eexists s1, _, s2, _.
  split; [exact Hrun1|]. split; [exact Hh1|].
  split; [exact Hrun2|]. split; [exact Hh2|].
  rewrite !publishes_section, Hself. cbn [relays set_relays].
  rewrite dict_set_values_new, flat_map_app, publishes_app by done.
  f_equal.
  - f_equal. apply flat_map_ext_elem. intros o Ho. rewrite Hoth; [done|].
    pose proof Hwf as (_ & _ & Hlt & _). rewrite Forall_forall in Hlt.
    apply Hlt in Ho. lia.
  - simpl. rewrite Hobj. simpl. by destruct (should_write p).
Qed.



End RelayManager.

(** ** The properties on the sample manager *)

Lemma sample_state_wf : wf sample_state.
Proof. apply (bool_decide_unpack _). vm_compute. exact I. Defined.

Lemma sample_state_swapped_wf : wf sample_state_swapped.
Proof. apply (bool_decide_unpack _). vm_compute. exact I. Defined.

(** C1 on the sample manager: an unsigned note and a note with a wrong
    signature are refused and leave the state as it was; a signed note is
    sent once to the writable relay and not to the other. *)
Lemma publish_event_spec_witness :
  publish_event sample_dumps sample_verify (note None) sample_state
  = (Raise (RelayException "Could not publish 4376c65d: must be signed"),
     sample_state)
  /\ publish_event sample_dumps sample_verify (note (Some "00")) sample_state
     = (Raise (RelayException
                 "Could not publish 4376c65d: failed to verify signature 00"),
        sample_state)
  /\ exists s' delta,
       publish_event sample_dumps sample_verify (note (Some "3045022100"))
         sample_state = (Ok tt, s')
       /\ history s' = history sample_state ++ delta
       /\ published_to 0 delta
          = [sample_dumps (JArr [JStr "EVENT"; event_object (note None)])]
       /\ published_to 1 delta = [].
Proof.
  split.
  { exact (proj1 (publish_event_spec sample_dumps sample_verify
                    (note None) sample_state) eq_refl). }
  split.
  { exact (proj1 (proj2 (publish_event_spec sample_dumps sample_verify
                           (note (Some "00")) sample_state))
             "00" eq_refl eq_refl). }
  destruct (proj2 (proj2 (publish_event_spec sample_dumps sample_verify
                            (note (Some "3045022100")) sample_state))
              "3045022100" eq_refl eq_refl sample_state_wf)
    as (s' & delta & Hrun & _ & _ & Hhist & Hpub & _).
  exists s', delta. split; [exact Hrun|]. split; [exact Hhist|].
  split.
  - exact (Hpub "wss://relay.a" 0 eq_refl).
  - exact (Hpub "wss://relay.b" 1 eq_refl).
Defined.

(** C2 on the sample manager: subscribing on an unknown url and on the relay
    that may not be read from raises; subscribing on the readable relay sends
    one REQ and records the subscription. *)
Lemma add_subscription_on_relay_spec_witness :
  (exists s',
     add_subscription_on_relay sample_dumps "wss://relay.c" "s1"
       sample_filters sample_state
     = (Raise (RelayException
                 "Invalid relay url: no connection to wss://relay.c"), s'))
  /\ (exists s',
        add_subscription_on_relay sample_dumps "wss://relay.b" "s1"
          sample_filters sample_state
        = (Raise (RelayException
                    "Could not send request: wss://relay.b is not configured to read from"),
           s'))
  /\ (exists s' delta,
        add_subscription_on_relay sample_dumps "wss://relay.a" "s1"
          sample_filters sample_state = (Ok tt, s')
        /\ history s' = history sample_state ++ delta
        /\ outbound delta
           = [sample_dumps (JArr (JStr "REQ" :: JStr "s1" :: sample_filters))]
        /\ dict_get "s1" (subscriptions (objects s' 0))
           = Some {| sub_id := "s1"; sub_filters := sample_filters |}).
Proof.
  split.
  { exact (proj1 (add_subscription_on_relay_spec sample_dumps
                    "wss://relay.c" "s1" sample_filters sample_state)
             eq_refl). }
  split.
  { exact (proj1 (proj2 (add_subscription_on_relay_spec sample_dumps
                           "wss://relay.b" "s1" sample_filters sample_state))
             1 eq_refl eq_refl). }
  destruct (proj2 (proj2 (add_subscription_on_relay_spec sample_dumps
                            "wss://relay.a" "s1" sample_filters sample_state))
              0 eq_refl eq_refl)
    as (s' & delta & Hrun & _ & Hhist & Hout & _ & _ & Hsub & _).
  exists s', delta. auto.
Defined.

(** C3 on the sample manager: the readable relay gets the record and the
    REQ and keeps its other subscription, the other relay gets nothing;
    with the relays registered in the other order every relay ends the
    same. *)
Lemma add_subscription_on_all_relays_spec_witness :
  exists s' delta,
    add_subscription_on_all_relays sample_dumps "s1" sample_filters
      sample_state = (Ok tt, s')
    /\ history s' = history sample_state ++ delta
    /\ calls_on 0 delta
       = [AddSubscription 0 "s1" sample_filters;
          Publish 0
            (sample_dumps (JArr (JStr "REQ" :: JStr "s1" :: sample_filters)))]
    /\ dict_get "s1" (subscriptions (objects s' 0))
       = Some {| sub_id := "s1"; sub_filters := sample_filters |}
    /\ dict_get "feed" (subscriptions (objects s' 0))
       = Some {| sub_id := "feed"; sub_filters := sample_filters |}
    /\ calls_on 1 delta = []
    /\ objects s' 1 = relay_b
    /\ dict_get "s1" (subscriptions (objects s' 1)) = None
    /\ exists s2' delta2,
         add_subscription_on_all_relays sample_dumps "s1" sample_filters
           sample_state_swapped = (Ok tt, s2')
         /\ history s2' = history sample_state_swapped ++ delta2
         /\ forall o, objects s2' o = objects s' o
                      /\ calls_on o delta2 = calls_on o delta.
Proof.
  destruct (add_subscription_on_all_relays_spec sample_dumps "s1"
              sample_filters sample_state sample_state_wf)
    as (s' & delta & Hrun & _ & Hhist & Hper & Horder).
  exists s', delta. split; [exact Hrun|]. split; [exact Hhist|].
  pose proof (Hper "wss://relay.a" 0 eq_refl) as (_ & Ha & Hrec & Hrest).
  pose proof (Hper "wss://relay.b" 1 eq_refl) as (Hob & Hb & Hsame).
  split; [exact Ha|]. split; [exact Hrec|].
  split; [rewrite (Hrest "feed"); [reflexivity | discriminate]|].
  split; [exact Hb|]. split; [exact Hob|].
  split; [rewrite (Hsame "s1"); reflexivity|].
  destruct (Horder sample_state_swapped sample_state_swapped_wf eq_refl)
    as (s2' & delta2 & Hrun2 & Hhist2 & Hsame2).
  { apply perm_swap. }
  exists s2', delta2. split; [exact Hrun2|]. split; [exact Hhist2|].
  exact Hsame2.
Defined.

(** C4 on the sample manager: closing a subscription on an unknown url
    raises; on the relay that may not be read from it removes the record and
    sends CLOSE. *)
Lemma close_subscription_on_relay_spec_witness :
  (exists s',
     close_subscription_on_relay sample_dumps "wss://relay.c" "feed"
       sample_state
     = (Raise (RelayException
                 "Invalid relay url: no connection to wss://relay.c"), s'))
  /\ should_read (policy (objects sample_state 1)) = false
  /\ dict_get "feed" (subscriptions (objects sample_state 1))
     = Some {| sub_id := "feed"; sub_filters := sample_filters |}
  /\ exists s',
       close_subscription_on_relay sample_dumps "wss://relay.b" "feed"
         sample_state = (Ok tt, s')
       /\ history s'
          = [LockAcquire; CloseSubscription 1 "feed";
             Publish 1 (sample_dumps (JArr [JStr "CLOSE"; JStr "feed"]));
             LockRelease]
       /\ dict_get "feed" (subscriptions (objects s' 1)) = None.
Proof.
  split.
  { exact (proj1 (close_subscription_on_relay_spec sample_dumps
                    "wss://relay.c" "feed" sample_state) eq_refl). }
  split; [reflexivity|]. split; [reflexivity|].
  destruct (proj2 (close_subscription_on_relay_spec sample_dumps
                     "wss://relay.b" "feed" sample_state) 1 eq_refl)
    as (s' & Hrun & _ & Hhist & Hgone & _).
  exists s'. auto.
Defined.

(** C5 on the sample manager: adding a relay under a url that is already
    registered registers a new object, connects it once, and neither closes
    nor touches the relay registered before. *)
Lemma add_relay_spec_witness :
  exists s' delta,
    add_relay sample_connect "wss://relay.a" default_policy None None
      sample_state = (Ok tt, s')
    /\ dict_get "wss://relay.a" (relays (self s')) = Some 2
    /\ connects_on 2 (history s') = [false]
    /\ history s' = history sample_state ++ delta
    /\ closed_in delta = []
    /\ objects s' 0 = relay_a
    /\ calls_on 0 delta = [].
Proof.
  destruct (add_relay_spec sample_connect "wss://relay.a" default_policy
              None None sample_state sample_state_wf)
    as (s' & delta & Hrun & Hget & _ & _ & Hconn & Hhist & Hclosed & Hold & _).
  destruct (Hold 0 eq_refl) as (_ & Hobj & Hcalls).
  exists s', delta. auto 10.
Defined.

(** C6 on the sample manager: removing an unknown url changes nothing;
    removing a registered one unregisters it and closes its relay. *)
Lemma remove_relay_spec_witness :
  remove_relay "wss://relay.c" sample_state
  = (Ok tt, with_history [LockAcquire; LockRelease] sample_state)
  /\ exists s',
       remove_relay "wss://relay.a" sample_state = (Ok tt, s')
       /\ dict_get "wss://relay.a" (relays (self s')) = None
       /\ dict_get "wss://relay.b" (relays (self s')) = Some 1
       /\ history s' = [LockAcquire; Close 0; LockRelease].
Proof.
  split.
  { exact (proj1 (remove_relay_spec "wss://relay.c" sample_state) eq_refl). }
  destruct (proj2 (remove_relay_spec "wss://relay.a" sample_state) 0 eq_refl)
    as (s' & Hrun & Hgone & Hrest & Hhist & _).
  exists s'. split; [exact Hrun|]. split; [exact Hgone|].
  split; [|exact Hhist].
  rewrite (Hrest "wss://relay.b"); [reflexivity | discriminate].
Defined.

(** C7 on the sample manager: both relays are closed, once each, and both
    urls stay registered. *)
Lemma close_all_relay_connections_spec_witness :
  exists s' delta,
    close_all_relay_connections sample_state = (Ok tt, s')
    /\ self s' = self sample_state
    /\ closed_in delta = [0; 1]
    /\ calls_on 0 delta = [Close 0]
    /\ calls_on 1 delta = [Close 1].
Proof.
  destruct (close_all_relay_connections_spec sample_state sample_state_wf)
    as (s' & delta & Hrun & Hself & _ & Hclosed & Hper).
  destruct (Hper "wss://relay.a" 0 eq_refl) as (_ & Ha & _).
  destruct (Hper "wss://relay.b" 1 eq_refl) as (_ & Hb & _).
  exists s', delta. auto 10.
Defined.



(** C10 on the sample manager: the refused subscription on the relay that
    may not be read from leaves the manager and the relays as they were. *)
Lemma add_subscription_on_relay_failure_atomic_witness :
  (add_subscription_on_relay sample_dumps "wss://relay.b" "s1"
     sample_filters sample_state).1
  = Raise (RelayException
             "Could not send request: wss://relay.b is not configured to read from")
  /\ self (add_subscription_on_relay sample_dumps "wss://relay.b" "s1"
             sample_filters sample_state).2
     = self sample_state
  /\ objects (add_subscription_on_relay sample_dumps "wss://relay.b" "s1"
                sample_filters sample_state).2
     = objects sample_state
  /\ history (add_subscription_on_relay sample_dumps "wss://relay.b" "s1"
                sample_filters sample_state).2
     = [LockAcquire; LockRelease].
Proof.
  split; [reflexivity|].
  destruct (add_subscription_on_relay_failure_atomic sample_dumps
              "wss://relay.b" "s1" sample_filters sample_state
              (add_subscription_on_relay sample_dumps "wss://relay.b" "s1"
                 sample_filters sample_state).2
              (RelayException
                 "Could not send request: wss://relay.b is not configured to read from")
              eq_refl)
    as (_ & Hself & Hobj & _ & Hhist).
  auto.
Defined.

(** ** The further properties on the sample manager *)

(** X1 on the sample manager: both relays, the one that may not be read
    from included, lose the subscription and are sent CLOSE. *)
Lemma close_subscription_on_all_relays_spec_witness :
  exists s' delta,
    close_subscription_on_all_relays sample_dumps "feed" sample_state
    = (Ok tt, s')
    /\ calls_on 0 delta
       = [CloseSubscription 0 "feed";
          Publish 0 (sample_dumps (JArr [JStr "CLOSE"; JStr "feed"]))]
    /\ calls_on 1 delta
       = [CloseSubscription 1 "feed";
          Publish 1 (sample_dumps (JArr [JStr "CLOSE"; JStr "feed"]))]
    /\ dict_get "feed" (subscriptions (objects s' 1)) = None.
Proof.
  destruct (close_subscription_on_all_relays_spec sample_dumps "feed"
              sample_state sample_state_wf)
    as (s' & delta & Hrun & _ & _ & Hper & _).
  destruct (Hper "wss://relay.a" 0 eq_refl) as (Ha & _).
  destruct (Hper "wss://relay.b" 1 eq_refl) as (Hb & Hgone & _).
  exists s', delta. auto.
Defined.

(** X2 on a manager to which one relay has been added. *)
Lemma reachable_lock_discipline_witness :
  lock_trace false
    (history (add_relay sample_connect "wss://relay.a" default_policy
                None None (post_init 5 None None)).2)
  = Some false.
Proof.
  apply (reachable_lock_discipline sample_dumps sample_verify sample_connect).
  eapply reachable_step; [apply reachable_init | apply step_add_relay].
Defined.

(** X3 on a manager to which one relay has been added. *)
Lemma reachable_registry_witness :
  0 < next_oid (add_relay sample_connect "wss://relay.a" default_policy
                  None None (post_init 5 None None)).2
  /\ url (objects (add_relay sample_connect "wss://relay.a" default_policy
                     None None (post_init 5 None None)).2 0)
     = "wss://relay.a".
Proof.
  destruct (reachable_registry sample_dumps sample_verify sample_connect
              (add_relay sample_connect "wss://relay.a" default_policy
                 None None (post_init 5 None None)).2
              "wss://relay.a" 0)
    as (Hlt & Hurl & _).
  - eapply reachable_step; [apply reachable_init | apply step_add_relay].
  - reflexivity.
  - split; [exact Hlt | exact Hurl].
Defined.

(** X4 on the sample manager: the first relay is overwritten, then all
    connections are closed; the overwritten relay is not. *)
Lemma overwritten_relay_abandoned_witness :
  exists delta,
    history (close_all_relay_connections
               (add_relay sample_connect "wss://relay.a" default_policy
                  None None sample_state).2).2
    = history sample_state ++ delta
    /\ calls_on 0 delta = []
    /\ objects (close_all_relay_connections
                  (add_relay sample_connect "wss://relay.a" default_policy
                     None None sample_state).2).2 0
       = relay_a.
Proof.
  destruct (overwritten_relay_abandoned sample_dumps sample_verify
              sample_connect "wss://relay.a" default_policy None None
              sample_state
              (close_all_relay_connections
                 (add_relay sample_connect "wss://relay.a" default_policy
                    None None sample_state).2).2
              0 sample_state_wf eq_refl)
    as (delta & Hhist & Hcalls & Hobj & _).
  - apply rtc_once, step_close_all_relay_connections.
  - exists delta. auto.
Defined.

(** X5 on the sample manager, after a relay has been removed. *)
Lemma configuration_is_kept_witness :
  same_config (self sample_state)
    (self (remove_relay "wss://relay.a" sample_state).2)
  /\ same_identity (objects sample_state 1)
       (objects (remove_relay "wss://relay.a" sample_state).2 1).
Proof.
  destruct (configuration_is_kept sample_dumps sample_verify sample_connect
              sample_state (remove_relay "wss://relay.a" sample_state).2
              sample_state_wf)
    as [Hcfg Hid].
  - apply rtc_once, step_remove_relay.
  - split; [exact Hcfg|]. apply Hid. simpl. lia.
Defined.


(** X8 on the sample manager: a relay added write-only refuses
    subscriptions and receives the published note. *)
Lemma add_relay_policy_governs_witness :
  (exists s2,
     add_subscription_on_relay sample_dumps "wss://relay.c" "s1"
       sample_filters
       (add_relay sample_connect "wss://relay.c"
          {| should_read := false; should_write := true |} None None
          sample_state).2
     = (Raise (RelayException
                 "Could not send request: wss://relay.c is not configured to read from"),
        s2))
  /\ exists s2 delta,
       publish_event sample_dumps sample_verify (note (Some "3045022100"))
         (add_relay sample_connect "wss://relay.c"
            {| should_read := false; should_write := true |} None None
            sample_state).2
       = (Ok tt, s2)
       /\ published_to 2 delta
          = [sample_dumps (JArr [JStr "EVENT"; event_object (note None)])].
Proof.
  pose proof (add_relay_policy_governs sample_dumps sample_verify
                sample_connect "wss://relay.c"
                {| should_read := false; should_write := true |} None None
                sample_state) as [Hsub Hpub].
  split; [exact (Hsub "s1" sample_filters)|].
  destruct (Hpub (note (Some "3045022100")) "3045022100" sample_state_wf
              eq_refl eq_refl)
    as (s2 & delta & Hrun & _ & Hto).
  exists s2, delta. auto.
Defined.

(** X9 on the sample manager. *)
Lemma subscribe_then_unsubscribe_witness :
  exists s1 s2,
    add_subscription_on_relay sample_dumps "wss://relay.a" "s1"
      sample_filters sample_state = (Ok tt, s1)
    /\ close_subscription_on_relay sample_dumps "wss://relay.a" "s1" s1
       = (Ok tt, s2)
    /\ dict_get "s1" (subscriptions (objects s2 0)) = None
    /\ dict_get "feed" (subscriptions (objects s2 0))
       = Some {| sub_id := "feed"; sub_filters := sample_filters |}.
Proof.
  destruct (subscribe_then_unsubscribe sample_dumps "wss://relay.a" "s1"
              sample_filters 0 sample_state eq_refl eq_refl)
    as (s1 & s2 & Hrun1 & Hrun2 & _ & _ & Hgone & Hrest & _).
  exists s1, s2. split; [exact Hrun1|]. split; [exact Hrun2|].
  split; [exact Hgone|]. rewrite (Hrest "feed"); [reflexivity|discriminate].
Defined.


(** X11 on the sample manager: one [publish], to the writable relay. *)
Lemma publish_event_order_witness :
  exists s' delta,
    publish_event sample_dumps sample_verify (note (Some "3045022100"))
      sample_state = (Ok tt, s')
    /\ publishes delta
       = [(0, sample_dumps (JArr [JStr "EVENT"; event_object (note None)]))].
Proof.
  destruct (publish_event_order sample_dumps sample_verify
              (note (Some "3045022100")) "3045022100" sample_state
              sample_state_wf eq_refl eq_refl)
    as (s' & delta & Hrun & _ & Hpub).
  exists s', delta. split; [exact Hrun | exact Hpub].
Defined.

(** X12 on the sample manager: a third relay, added writable, is served
    after the first. *)
Lemma add_relay_served_last_witness :
  exists s1 delta1 s2 delta2,
    publish_event sample_dumps sample_verify (note (Some "3045022100"))
      sample_state = (Ok tt, s1)
    /\ history s1 = history sample_state ++ delta1
    /\ publish_event sample_dumps sample_verify (note (Some "3045022100"))
         (add_relay sample_connect "wss://relay.c" default_policy None None
            sample_state).2
       = (Ok tt, s2)
    /\ publishes delta2
       = publishes delta1
         ++ [(2, sample_dumps
                   (JArr [JStr "EVENT"; event_object (note None)]))].
Proof.
  destruct (add_relay_served_last sample_dumps sample_verify sample_connect
              "wss://relay.c" default_policy None None
              (note (Some "3045022100")) "3045022100" sample_state
              sample_state_wf eq_refl eq_refl eq_refl)
    as (s1 & d1 & s2 & d2 & Hrun1 & Hh1 & Hrun2 & _ & Hpub).
  exists s1, d1, s2, d2. auto.
Defined.

